(** * awspagination: a shallow embedding of the analyzer and its properties

    The development follows [awspagination.go]: the helpers of Go's
    [strings] package the analyzer calls, the configuration, the type
    graph of [go/types] as a store of type objects keyed by identity, the
    field resolver and the provenance checker with their [seen] maps, the
    syntax tree walked by [hasPaginationHandling], the message builder and
    [checkAssignment]. *)

From Stdlib Require Import ZArith Ascii String.
From stdpp Require Import base tactics option list relations gmap strings.

Local Open Scope Z_scope.
Set Warnings "-register-all,-clear-no-such-hyp".

(** ** Go strings

    A Go string is a sequence of bytes, as is [string] here: [len] is
    [String.length], and slicing counts bytes. *)

Definition len (s : string) : Z := Z.of_nat (String.length s).

(** [s[n:]] for [0 <= n <= len(s)]. *)
Fixpoint sliceFrom (n : nat) (s : string) : string :=
  match n, s with
  | O, _ => s
  | S n', String _ s' => sliceFrom n' s'
  | S _, EmptyString => EmptyString
  end.

(** [s[:n]] for [0 <= n <= len(s)]. *)
Fixpoint sliceTo (n : nat) (s : string) : string :=
  match n, s with
  | O, _ => EmptyString
  | S n', String c s' => String c (sliceTo n' s')
  | S _, EmptyString => EmptyString
  end.

Module strings.

Fixpoint HasPrefix (s prefix : string) {struct prefix} : bool :=
  match prefix, s with
  | EmptyString, _ => true
  | String p prefix', String c s' =>
      if decide (p = c) then HasPrefix s' prefix' else false
  | String _ _, EmptyString => false
  end.

(** [strings.Index]: the byte offset of the first occurrence of [substr]
    in [s], or [-1]. *)
Fixpoint Index (s substr : string) : Z :=
  if HasPrefix s substr then 0
  else match s with
       | EmptyString => -1
       | String _ s' =>
           let i := Index s' substr in
           if decide (i < 0) then -1 else i + 1
       end.

Definition Contains (s substr : string) : bool :=
  bool_decide (0 ≤ Index s substr).

(** [strings.ToLower] on the ASCII letters; bytes outside ['A'..'Z'] are
    kept.  (Go also maps the upper-case runes beyond ASCII; the
    registered service keys are ASCII, and every statement below is made
    over the key that was looked up.) *)
Definition lowerByte (c : ascii) : ascii :=
  let n := N_of_ascii c in
  if decide (65 ≤ n ≤ 90)%N then ascii_of_N (n + 32) else c.

Fixpoint ToLower (s : string) : string :=
  match s with
  | EmptyString => EmptyString
  | String c s' => String (lowerByte c) (ToLower s')
  end.

(** [strings.Split(s, sep)] for a separator of one byte: the pieces of
    [s] between the occurrences of [sep], in order; a string without
    [sep] is its own single piece. *)
Fixpoint Split (s : string) (sep : ascii) : list string :=
  match s with
  | EmptyString => [EmptyString]
  | String c s' =>
      if decide (c = sep) then EmptyString :: Split s' sep
      else match Split s' sep with
           | piece :: pieces => String c piece :: pieces
           | [] => [String c EmptyString]
           end
  end.

(** [strings.Join]. *)
Fixpoint Join (elems : list string) (sep : string) : string :=
  match elems with
  | [] => EmptyString
  | [e] => e
  | e :: rest => e +:+ sep +:+ Join rest sep
  end.

End strings.

(** Number of occurrences of the byte [c] in [s]. *)
Fixpoint countByte (c : ascii) (s : string) : nat :=
  match s with
  | EmptyString => O
  | String d s' => (if decide (d = c) then 1 else 0)%nat + countByte c s'
  end.

(** ** Configuration *)

Definition defaultPaginationTokenFields : list string :=
  [ "NextToken"; "NextMarker"; "Marker"; "NextContinuationToken";
    "ContinuationToken"; "NextPageToken"; "NextPageMarker" ].

Definition apiSpecificPaginationFields : gmap string (list string) :=
  <[ "dynamodb" := ["LastEvaluatedKey"] ]>
  (<[ "apigateway" := ["Position"] ]>
  (<[ "route53" := ["IsTruncated"; "NextRecordName"; "NextRecordType";
                    "NextRecordIdentifier"] ]> ∅)).

Definition stringSliceFlag := list string.

Record Config := {
  CustomTokenFields : stringSliceFlag;
  IncludeTests : bool
}.

(** Go's [error]; [None] is [nil]. *)
Definition error := option string.

Definition stringSliceFlag_String (s : stringSliceFlag) : string :=
  strings.Join s ",".

(** [Set] on a [stringSliceFlag] receiver: the receiver's new value and the
    error returned. *)
Definition stringSliceFlag_Set (s : stringSliceFlag) (value : string)
  : stringSliceFlag * error :=
  if decide (value = "") then (s, None)
  else (s ++ strings.Split value ","%char, None).

Definition getPaginationTokenFields (config : Config) : list string :=
  defaultPaginationTokenFields ++ CustomTokenFields config.

(** ** The type graph

    [go/types] hands the analyzer type objects compared by identity; the
    graph they form may be cyclic.  A type is the key of its object in a
    store, and [seen], a [map[types.Type]bool] in which only [true] is ever
    stored, is the set of its keys. *)

Definition TypeId := nat.

(** A struct field, [*types.Var]. *)
Record Field := {
  fName : string;
  fType : TypeId;
  fEmbedded : bool
}.

Inductive TypeNode :=
| Pointer (elem : TypeId)
| Named (name : string) (pkg : option string) (underlying : TypeId)
| Struct (fields : list Field)
| Tuple (vars : list TypeId)
| Other.

(** A key without an object stands for a type without structure, as
    [Other] does (basic types, slices, maps, interfaces, ...). *)
Abbreviation TypeGraph := (gmap TypeId TypeNode).

(** Unwrap pointer types: [ptr.Elem()] when [t] is a [*types.Pointer],
    [t] itself otherwise. *)
Definition deref (G : TypeGraph) (t : TypeId) : TypeId :=
  match G !! t with
  | Some (Pointer e) => e
  | _ => t
  end.

(** The underlying type of a named type: [named.Underlying()] when [t] is
    a [*types.Named], [t] itself otherwise. *)
Definition underlyingOf (G : TypeGraph) (t : TypeId) : TypeId :=
  match G !! t with
  | Some (Named _ _ u) => u
  | _ => t
  end.

(** The fields of [t] when it is a [*types.Struct]. *)
Definition asStruct (G : TypeGraph) (t : TypeId) : option (list Field) :=
  match G !! t with
  | Some (Struct fs) => Some fs
  | _ => None
  end.

(** *** Traversals over the shared [seen] map

    A traversal reads and writes the one [seen] map it was given; [None]
    is a traversal cut short by the recursion bound. *)

Definition Walk (A : Type) : Type :=
  gset TypeId → option (A * gset TypeId).

Definition wret {A} (a : A) : Walk A := λ seen, Some (a, seen).

Definition wbind {A B} (m : Walk A) (k : A → Walk B) : Walk B :=
  λ seen, match m seen with
          | Some (a, seen') => k a seen'
          | None => None
          end.

Definition outOfFuel {A} : Walk A := λ _, None.

(** [seen[t]] *)
Definition visited (t : TypeId) : Walk bool :=
  λ seen, Some (bool_decide (t ∈ seen), seen).

(** [seen[t] = true] *)
Definition mark (t : TypeId) : Walk unit :=
  λ seen, Some ((), {[t]} ∪ seen).

Notation "'let*' x := m 'in' k" := (wbind m (λ x, k))
  (at level 10, x binder, m at level 200, k at level 200).

(** A [for ... range] loop whose body may return from the enclosing
    function: [Some r] is [return r], [None] goes on to the next element. *)
Fixpoint rangeLoop {E R} (body : E → Walk (option R)) (l : list E)
  : Walk (option R) :=
  match l with
  | [] => wret None
  | e :: rest =>
      let* r := body e in
      match r with
      | Some _ => wret r
      | None => rangeLoop body rest
      end
  end.

Definition hasFieldNamed (fields : list Field) (name : string) : bool :=
  existsb (λ field, bool_decide (fName field = name)) fields.

(** ** Field resolver *)

Fixpoint hasSpecificField (fuel : nat) (G : TypeGraph) (t : TypeId)
    (fieldName : string) : Walk bool :=
  match fuel with
  | O => outOfFuel
  | S fuel' =>
      let t := deref G t in
      let* was := visited t in
      if was : bool then wret false else
      let* _ := mark t in
      let t := underlyingOf G t in
      match asStruct G t with
      | None => wret false
      | Some fields =>
          if hasFieldNamed fields fieldName then wret true else
          let* found := rangeLoop (λ field,
                     if fEmbedded field then
                       let* b := hasSpecificField fuel' G (fType field) fieldName in
                       wret (if b : bool then Some true else None)
                     else wret None) fields in
          wret (default false found)
      end
  end.

Fixpoint hasPaginationTokenFieldRecursive (fuel : nat) (config : Config)
    (G : TypeGraph) (t : TypeId) : Walk string :=
  match fuel with
  | O => outOfFuel
  | S fuel' =>
      let t := deref G t in
      let* was := visited t in
      if was : bool then wret "" else
      let* _ := mark t in
      let t := underlyingOf G t in
      match asStruct G t with
      | None => wret ""
      | Some fields =>
          match find (hasFieldNamed fields) (getPaginationTokenFields config) with
          | Some tokenField => wret tokenField
          | None =>
              let* found := rangeLoop (λ field,
                         if fEmbedded field then
                           let* tokenField := hasPaginationTokenFieldRecursive
                                          fuel' config G (fType field) in
                           wret (if decide (tokenField ≠ "")
                                 then Some tokenField else None)
                         else wret None) fields in
              wret (default "" found)
          end
      end
  end.

(** ** Provenance checker *)

Definition isAWSSDKPackage (pkgPath : string) : bool :=
  strings.Contains pkgPath "aws-sdk-go-v2/service/".

(** [named.Obj().Pkg() != nil && isAWSSDKPackage(pkg.Path())] for a named
    [t], false for any other type. *)
Definition fromAWSSDK (G : TypeGraph) (t : TypeId) : bool :=
  match G !! t with
  | Some (Named _ (Some path) _) => isAWSSDKPackage path
  | _ => false
  end.

Fixpoint isAWSSDKTypeRecursive (fuel : nat) (G : TypeGraph) (t : TypeId)
  : Walk bool :=
  match fuel with
  | O => outOfFuel
  | S fuel' =>
      let t := deref G t in
      let* was := visited t in
      if was : bool then wret false else
      let* _ := mark t in
      if fromAWSSDK G t then wret true else
      let t := underlyingOf G t in
      match asStruct G t with
      | None => wret false
      | Some fields =>
          let* found := rangeLoop (λ field,
                     let* b := isAWSSDKTypeRecursive fuel' G (fType field) in
                     wret (if b : bool then Some true else None)) fields in
          wret (default false found)
      end
  end.

(** *** Entry points

    A traversal marks a type of the graph before it descends from it, so
    its depth never exceeds the number of types: one more than that is
    recursion enough (see [walks_terminate]). *)

Definition walkFuel (G : TypeGraph) : nat := S (size G).

(** The value of a traversal that ran from [seen]. *)
Definition result {A} (d : A) (r : option (A * gset TypeId)) : A :=
  match r with
  | Some (a, _) => a
  | None => d
  end.

Definition isAWSSDKType (G : TypeGraph) (t : TypeId) : bool :=
  result false (isAWSSDKTypeRecursive (walkFuel G) G t ∅).

Definition hasPaginationTokenField (config : Config) (G : TypeGraph)
    (t : TypeId) (serviceName : string) : string :=
  result ""
    ((let* specific := (if decide (serviceName ≠ "") then
                   match apiSpecificPaginationFields !! strings.ToLower serviceName with
                   | Some fields =>
                       rangeLoop (λ field,
                         let* b := hasSpecificField (walkFuel G) G t field in
                         wret (if b : bool then Some field else None)) fields
                   | None => wret None
                   end
                 else wret None) in
      match specific with
      | Some field => wret field
      | None => hasPaginationTokenFieldRecursive (walkFuel G) config G t
      end) ∅).

Definition getAllPaginationTokenFields (config : Config) (G : TypeGraph)
    (t : TypeId) (serviceName : string) : list string :=
  let fields : list string :=
    if decide (serviceName ≠ "") then
      match apiSpecificPaginationFields !! strings.ToLower serviceName with
      | Some serviceFields =>
          filter (λ field,
                    result false (hasSpecificField (walkFuel G) G t field ∅) = true)
                 serviceFields
      | None => []
      end
    else [] in
  if decide (0 < length fields)%nat then fields else
  let defaultField :=
    result "" (hasPaginationTokenFieldRecursive (walkFuel G) config G t ∅) in
  if decide (defaultField ≠ "") then fields ++ [defaultField] else fields.

(** ** Syntax trees

    The nodes of [go/ast] the analyzer tells apart; every other statement
    or expression is an [OtherNode] with its children in the order
    [ast.Inspect] visits them. *)

Definition Pos := Z.

Inductive Node :=
| Ident (Name : string)
| SelectorExpr (X : Node) (Sel : string)
| CallExpr (pos : Pos) (Fun : Node) (Args : list Node)
| AssignStmt (Lhs Rhs : list Node)
| OtherNode (children : list Node).

(** [ast.Inspect] with a callback that always returns [true]: every node
    is visited, parents before children, children from left to right.  The
    selector of a [SelectorExpr] is an identifier node of its own. *)
Fixpoint inspect {S : Type} (f : Node → S → S) (n : Node) (s : S) : S :=
  let s := f n s in
  match n with
  | Ident _ => s
  | SelectorExpr X Sel => f (Ident Sel) (inspect f X s)
  | CallExpr _ Fun Args =>
      fold_left (λ s a, inspect f a s) Args (inspect f Fun s)
  | AssignStmt Lhs Rhs =>
      fold_left (λ s a, inspect f a s) Rhs
        (fold_left (λ s a, inspect f a s) Lhs s)
  | OtherNode children => fold_left (λ s a, inspect f a s) children s
  end.

(** ** Consumption scanner *)

(** The two flags of [hasPaginationHandling]. *)
Record Handling := {
  hasTokenAccess : bool;
  hasPaginatorUsage : bool
}.

(** [sel.X] is an identifier named [varName]. *)
Definition isIdentNamed (x : Node) (varName : string) : bool :=
  match x with
  | Ident name => bool_decide (name = varName)
  | _ => false
  end.

(** The callback handed to [ast.Inspect]. *)
Definition scanNode (varName : string) (tokenFields : list string)
    (node : Node) (h : Handling) : Handling :=
  let h :=
    match node with
    | SelectorExpr X Sel =>
        if existsb (λ tokenField,
                      bool_decide (Sel = tokenField) && isIdentNamed X varName)
                   tokenFields
        then {| hasTokenAccess := true;
                hasPaginatorUsage := hasPaginatorUsage h |}
        else h
    | _ => h
    end in
  match node with
  | CallExpr _ (SelectorExpr _ Sel) _ =>
      let h :=
        if bool_decide (9 < len Sel)
           && bool_decide (sliceFrom (Z.to_nat (len Sel - 9)) Sel = "Paginator")
        then {| hasTokenAccess := hasTokenAccess h; hasPaginatorUsage := true |}
        else h in
      if bool_decide (Sel = "HasMorePages") || bool_decide (Sel = "NextPage")
      then {| hasTokenAccess := hasTokenAccess h; hasPaginatorUsage := true |}
      else h
  | _ => h
  end.

Definition hasPaginationHandling (body : Node) (varName : string)
    (tokenFields : list string) : bool :=
  let h := inspect (scanNode varName tokenFields) body
             {| hasTokenAccess := false; hasPaginatorUsage := false |} in
  hasTokenAccess h || hasPaginatorUsage h.

(** ** Call-site extraction *)

Definition extractServiceNameFromPackage (pkgPath : string) : string :=
  let idx := strings.Index pkgPath "aws-sdk-go-v2/service/" in
  if decide (idx < 0) then "" else
  let servicePath :=
    sliceFrom (Z.to_nat (idx + len "aws-sdk-go-v2/service/")) pkgPath in
  let slashIdx := strings.Index servicePath "/" in
  if decide (0 ≤ slashIdx) then sliceTo (Z.to_nat slashIdx) servicePath
  else servicePath.

Record apiCallInfo := {
  methodName : string;
  serviceName : string;
  typeName : string
}.

Definition extractAPICallInfo (G : TypeGraph) (callExpr : Node)
    (resultType : TypeId) : apiCallInfo :=
  let methodName :=
    match callExpr with
    | CallExpr _ (SelectorExpr _ Sel) _ => Sel
    | _ => ""
    end in
  let resultType := deref G resultType in
  match G !! resultType with
  | Some (Named name pkg _) =>
      {| methodName := methodName;
         serviceName := match pkg with
                        | Some path => extractServiceNameFromPackage path
                        | None => ""
                        end;
         typeName := name |}
  | _ => {| methodName := methodName; serviceName := ""; typeName := "" |}
  end.

(** What the analysis pass provides: the type recorded for an expression
    ([pass.TypesInfo.Types]) and the type objects themselves. *)
Record Pass := {
  TypesInfo_Types : Node → option TypeId;
  TypeObjects : TypeGraph
}.

Definition extractResultType (pass : Pass) (callExpr : Node) : option TypeId :=
  match TypesInfo_Types pass callExpr with
  | None => None
  | Some ty =>
      match TypeObjects pass !! ty with
      | Some (Tuple vars) =>
          match vars with
          | v :: _ => Some v
          | [] => None
          end
      | _ => Some ty
      end
  end.

Definition extractVariableName (lhs : Node) : string :=
  match lhs with
  | Ident Name => if decide (Name = "_") then "" else Name
  | _ => ""
  end.

(** ** Diagnostic builder

    [msg] is the [strings.Builder]; [WriteString] appends to it. *)

Definition WriteString (msg s : string) : string := msg +:+ s.

(** The loop [for i, field := range tokenFields] of the multi-field case,
    from index [i] on. *)
Fixpoint writeFields (tokenFields : list string) (i : nat)
    (fields : list string) (msg : string) : string :=
  match fields with
  | [] => msg
  | field :: rest =>
      let msg :=
        if decide (0 < i)%nat then
          if decide (i = length tokenFields - 1)%nat
          then WriteString msg ", and "
          else WriteString msg ", "
        else msg in
      let msg := WriteString msg field in
      writeFields tokenFields (S i) rest msg
  end.

Definition buildErrorMessage (tokenFields : list string) (varName : string)
    (info : apiCallInfo) : string :=
  let msg := "" in
  let msg := WriteString msg "missing pagination handling for AWS SDK List API call" in
  let msg :=
    match tokenFields with
    | [] => msg
    | [field0] => WriteString msg (" (result has " +:+ field0 +:+ " field)")
    | _ =>
        let msg := WriteString msg " (result has " in
        let msg := writeFields tokenFields 0 tokenFields msg in
        WriteString msg " fields)"
    end in
  let msg := WriteString msg (String "010"%char "When there are many results, only the first page is returned. Use ") in
  let msg :=
    if decide (serviceName info ≠ "" ∧ methodName info ≠ "")
    then WriteString msg ("New" +:+ methodName info +:+ "Paginator")
    else WriteString msg "a paginator" in
  let msg := WriteString msg " or loop with " in
  let msg :=
    if decide (varName ≠ "") then WriteString msg (varName +:+ ".") else msg in
  match tokenFields with
  | [] => msg
  | [field0] => WriteString msg (field0 +:+ ".")
  | field0 :: _ => WriteString msg (field0 +:+ " (or other pagination fields).")
  end.

(** ** Orchestrator *)

Record Diagnostic := {
  diagPos : Pos;
  Message : string
}.

(** A function declaration with a body: [run] calls [checkAssignment] with
    no other. *)
Record FuncDecl := {
  Body : Node
}.

(** One iteration of the loop of [checkAssignment] over [assignStmt.Rhs]:
    the diagnostic reported for [rightHandSide] at index [i], [None] where
    the iteration reports nothing. *)
Definition checkRightHandSide (config : Config) (pass : Pass)
    (Lhs : list Node) (funcDecl : FuncDecl) (i : nat) (rightHandSide : Node)
  : option Diagnostic :=
  match rightHandSide with
  | CallExpr pos _ _ =>
      let callExpr := rightHandSide in
      match Lhs !! i with
      | None => None
      | Some lhs =>
          match extractResultType pass callExpr with
          | None => None
          | Some resultType =>
              let G := TypeObjects pass in
              let apiInfo := extractAPICallInfo G callExpr resultType in
              let tokenField :=
                hasPaginationTokenField config G resultType (serviceName apiInfo) in
              if decide (tokenField = "") then None else
              if negb (isAWSSDKType G resultType) then None else
              let varName := extractVariableName lhs in
              if decide (varName = "") then None else
              let allTokenFields :=
                getAllPaginationTokenFields config G resultType
                  (serviceName apiInfo) in
              if decide (length allTokenFields = 0)%nat then None else
              if hasPaginationHandling (Body funcDecl) varName allTokenFields
              then None
              else Some {| diagPos := pos;
                           Message := buildErrorMessage allTokenFields varName
                                        apiInfo |}
          end
      end
  | _ => None
  end.

(** The diagnostics [checkAssignment] reports, in order; an expression
    that is no assignment statement has no right-hand sides. *)
Definition checkAssignment (config : Config) (pass : Pass)
    (assignStmt : Node) (funcDecl : FuncDecl) : list Diagnostic :=
  match assignStmt with
  | AssignStmt Lhs Rhs =>
      omap id (imap (checkRightHandSide config pass Lhs funcDecl) Rhs)
  | _ => []
  end.



(** ** The pass over the files

    [run] hands a callback to [inspector.Nodes], which walks the files of
    the pass and calls it at the function declarations and the assignment
    statements, before ([push]) and after the children of each; when the
    callback returns false before the children, they are skipped and there
    is no call after them. *)


(** A declaration of a file: a function declaration, whose body is absent
    when the function is declared without one, or any other declaration.
    Function declarations are not nested. *)
Inductive Decl :=
| FuncDeclNode (body : option Node)
| GenDeclNode (decl : Node).

(** A file; [pass.Fset.Position(n.Pos()).Filename] is its name for every
    node [n] in it. *)
Record File := {
  Filename : string;
  Decls : list Decl
}.






(** * Vocabulary of the statements *)

(** The types of the graph a traversal has not marked yet: the measure
    that bounds its depth. *)
Definition unseen (G : TypeGraph) (seen : gset TypeId) : nat :=
  size (dom G ∖ seen).

(** A traversal that returns from every [seen] map that contains [S0], and
    only adds to the map. *)
Definition returnsFrom {A} (S0 : gset TypeId) (m : Walk A) : Prop :=
  ∀ seen, S0 ⊆ seen → ∃ a seen', m seen = Some (a, seen') ∧ seen ⊆ seen'.

(** [m'] returns what [m] returns, wherever [m] returns. *)
Definition walkLe {A} (m m' : Walk A) : Prop :=
  ∀ seen r, m seen = Some r → m' seen = Some r.

(** The struct a type stands for: its own fields when it is a struct, the
    fields of its underlying type when it is a named struct type. *)
Definition structOf (G : TypeGraph) (t : TypeId) : option (list Field) :=
  asStruct G (underlyingOf G t).

(** [v] is the type, less one pointer level, of an embedded member of the
    struct of [u]. *)
Definition embeds (G : TypeGraph) (u v : TypeId) : Prop :=
  ∃ fields field,
    structOf G u = Some fields ∧ field ∈ fields ∧
    fEmbedded field = true ∧ v = deref G (fType field).

(** [v] is the type, less one pointer level, of a field of the struct of
    [u], embedded or not. *)
Definition holds (G : TypeGraph) (u v : TypeId) : Prop :=
  ∃ fields field,
    structOf G u = Some fields ∧ field ∈ fields ∧ v = deref G (fType field).

(** The struct of [u] declares a field [name] itself. *)
Definition declares (G : TypeGraph) (u : TypeId) (name : string) : Prop :=
  ∃ fields, structOf G u = Some fields ∧ hasFieldNamed fields name = true.

(** [name] is structurally present in [t]: a field of the struct of [t],
    less one pointer level, or of a struct reached from it through
    embedded members. *)
Definition present (G : TypeGraph) (t : TypeId) (name : string) : Prop :=
  ∃ v, rtc (embeds G) (deref G t) v ∧ declares G v name.

(** What a traversal that found nothing leaves behind: every type it
    marked is no hit, and the types its edges lead to are marked too. *)
Definition explored (hit : TypeId → Prop) (edge : relation TypeId)
    (seen seen' : gset TypeId) : Prop :=
  seen ⊆ seen' ∧
  ∀ x, x ∈ seen' → x ∉ seen → ¬ hit x ∧ ∀ v, edge x v → v ∈ seen'.

(** [v] is a named type declared in a package whose path contains the
    marker of the SDK's service packages. *)
Definition trustedNamed (G : TypeGraph) (v : TypeId) : Prop :=
  ∃ name path u pre post,
    G !! v = Some (Named name (Some path) u) ∧
    path = pre +:+ "aws-sdk-go-v2/service/" +:+ post.

(** Reachability as the traversal of [isAWSSDKTypeRecursive] follows it:
    from the type less one pointer level, through fields of structs. *)
Definition trustedWithin (G : TypeGraph) (t : TypeId) : Prop :=
  ∃ v, rtc (holds G) (deref G t) v ∧ trustedNamed G v.

(** Reachability by the three moves taken freely: unwrapping a pointer,
    taking a named type's underlying type, descending into a struct
    field. *)
Inductive reachStep (G : TypeGraph) : relation TypeId :=
| reach_elem t e :
    G !! t = Some (Pointer e) → reachStep G t e
| reach_underlying t name pkg u :
    G !! t = Some (Named name pkg u) → reachStep G t u
| reach_field t fields field :
    G !! t = Some (Struct fields) → field ∈ fields →
    reachStep G t (fType field).

(** The nodes [ast.Inspect] visits right below [n], in its order. *)
Definition children (n : Node) : list Node :=
  match n with
  | Ident _ => []
  | SelectorExpr X Sel => [X; Ident Sel]
  | CallExpr _ Fun Args => Fun :: Args
  | AssignStmt Lhs Rhs => Lhs ++ Rhs
  | OtherNode cs => cs
  end.

(** Induction over a syntax tree through the children of each node. *)
Fixpoint Node_children_ind (P : Node → Prop)
    (step : ∀ n, Forall P (children n) → P n) (n : Node) : P n :=
  let all := fix all (l : list Node) : Forall P l :=
    match l with
    | [] => Forall_nil_2 P
    | a :: l' => Forall_cons_2 P a l' (Node_children_ind P step a) (all l')
    end in
  step n
    match n return Forall P (children n) with
    | Ident _ => Forall_nil_2 P
    | SelectorExpr X Sel =>
        Forall_cons_2 P _ _ (Node_children_ind P step X)
          (Forall_cons_2 P _ _ (step (Ident Sel) (Forall_nil_2 P))
             (Forall_nil_2 P))
    | CallExpr _ Fun Args =>
        Forall_cons_2 P _ _ (Node_children_ind P step Fun) (all Args)
    | AssignStmt Lhs Rhs => Forall_app_2 P _ _ (all Lhs) (all Rhs)
    | OtherNode cs => all cs
    end.

(** [body] contains an invocation whose target is a selector with member
    name [member]: such a call is [body] or lies below it. *)
Definition invokes (body : Node) (member : string) : Prop :=
  ∃ pos X args,
    rtc (λ parent child, child ∈ children parent) body
        (CallExpr pos (SelectorExpr X member) args).

(** * Sample inputs *)

Module Examples.

Definition noCustomFields : Config :=
  {| CustomTokenFields := []; IncludeTests := false |}.

(** [*dynamodb.ListExportsOutput]: a known service whose output carries
    the generic [NextToken] and not [LastEvaluatedKey]. *)
Definition listExports : TypeGraph :=
  <[ 1%nat := Pointer 2%nat ]>
  (<[ 2%nat := Named "ListExportsOutput"
                 (Some "github.com/aws/aws-sdk-go-v2/service/dynamodb") 3%nat ]>
  (<[ 3%nat := Struct
        [ {| fName := "ExportSummaries"; fType := 4%nat; fEmbedded := false |};
          {| fName := "NextToken"; fType := 5%nat; fEmbedded := false |} ] ]>
  (<[ 5%nat := Pointer 6%nat ]> ∅))).

(** [*route53.ListResourceRecordSetsOutput] with a generic [NextToken]
    added to it. *)
Definition listRecordSets : TypeGraph :=
  <[ 1%nat := Pointer 2%nat ]>
  (<[ 2%nat := Named "ListResourceRecordSetsOutput"
                 (Some "github.com/aws/aws-sdk-go-v2/service/route53") 3%nat ]>
  (<[ 3%nat := Struct
        [ {| fName := "NextToken"; fType := 5%nat; fEmbedded := false |};
          {| fName := "IsTruncated"; fType := 4%nat; fEmbedded := false |};
          {| fName := "NextRecordName"; fType := 5%nat; fEmbedded := false |} ] ]>
  (<[ 5%nat := Pointer 6%nat ]> ∅))).

(** [type Page struct { Inner; Marker *string }] over
    [type Inner struct { NextToken *string }]. *)
Definition wrappedPage : TypeGraph :=
  <[ 1%nat := Named "Page" (Some "example.com/app") 2%nat ]>
  (<[ 2%nat := Struct
        [ {| fName := "Inner"; fType := 3%nat; fEmbedded := true |};
          {| fName := "Marker"; fType := 5%nat; fEmbedded := false |} ] ]>
  (<[ 3%nat := Named "Inner" (Some "example.com/app") 4%nat ]>
  (<[ 4%nat := Struct
        [ {| fName := "NextToken"; fType := 5%nat; fEmbedded := false |} ] ]>
  (<[ 5%nat := Pointer 6%nat ]> ∅)))).

(** [type Node struct { *Node; Value int }]: type 1 is [*Node]. *)
Definition selfEmbedding : TypeGraph :=
  <[ 1%nat := Pointer 2%nat ]>
  (<[ 2%nat := Named "Node" (Some "example.com/app") 3%nat ]>
  (<[ 3%nat := Struct
        [ {| fName := "Node"; fType := 1%nat; fEmbedded := true |};
          {| fName := "Value"; fType := 4%nat; fEmbedded := false |} ] ]> ∅)).

(** [**s3.ListBucketsOutput]: type 1 is the pointer to the pointer. *)
Definition doublePointer : TypeGraph :=
  <[ 1%nat := Pointer 2%nat ]>
  (<[ 2%nat := Pointer 3%nat ]>
  (<[ 3%nat := Named "ListBucketsOutput"
                 (Some "github.com/aws/aws-sdk-go-v2/service/s3") 4%nat ]>
  (<[ 4%nat := Struct
        [ {| fName := "Buckets"; fType := 5%nat; fEmbedded := false |} ] ]> ∅))).

(** [type Wrapper struct { Out *s3.ListBucketsOutput }] from a vendored
    copy of the SDK: the trusted type is a named, not embedded, field. *)
Definition wrapper : TypeGraph :=
  <[ 1%nat := Named "Wrapper" (Some "example.com/app") 2%nat ]>
  (<[ 2%nat := Struct
        [ {| fName := "Out"; fType := 3%nat; fEmbedded := false |} ] ]>
  (<[ 3%nat := Pointer 4%nat ]>
  (<[ 4%nat := Named "ListBucketsOutput"
                 (Some "example.com/app/vendor/github.com/aws/aws-sdk-go-v2/service/s3")
                 5%nat ]>
  (<[ 5%nat := Struct [] ]> ∅)))).

(** [{ client.Paginator() }] *)
Definition barePaginatorCall : Node :=
  OtherNode [CallExpr 10 (SelectorExpr (Ident "client") "Paginator") []].

(** [{ p := s3.NewListObjectsV2Paginator(client, input); use(p) }] *)
Definition paginatorBody : Node :=
  OtherNode
    [ AssignStmt [Ident "p"]
        [CallExpr 10 (SelectorExpr (Ident "s3") "NewListObjectsV2Paginator")
           [Ident "client"; Ident "input"]];
      OtherNode [CallExpr 40 (Ident "use") [Ident "p"]] ].

(** [client.ListBuckets(ctx, input)], whose results are a
    [*s3.ListBucketsOutput] with a [NextToken] field and an [error]. *)
Definition listBucketsCall : Node :=
  CallExpr 42 (SelectorExpr (Ident "client") "ListBuckets")
    [Ident "ctx"; Ident "input"].

Definition listBuckets : TypeGraph :=
  <[ 1%nat := Pointer 2%nat ]>
  (<[ 2%nat := Named "ListBucketsOutput"
                 (Some "github.com/aws/aws-sdk-go-v2/service/s3") 3%nat ]>
  (<[ 3%nat := Struct
        [ {| fName := "Buckets"; fType := 4%nat; fEmbedded := false |};
          {| fName := "NextToken"; fType := 5%nat; fEmbedded := false |} ] ]>
  (<[ 5%nat := Pointer 6%nat ]>
  (<[ 7%nat := Tuple [1%nat; 8%nat] ]> ∅)))).

Definition listBucketsPass : Pass :=
  {| TypesInfo_Types := λ n,
       match n with
       | CallExpr 42 _ _ => Some 7%nat
       | _ => None
       end;
     TypeObjects := listBuckets |}.

(** A function whose body does nothing about pagination. *)
Definition noHandling : FuncDecl := {| Body := OtherNode [] |}.

End Examples.


(** * Vocabulary of the further statements *)

(** [child] is visited right below [parent]. *)
Definition childOf (parent child : Node) : Prop := child ∈ children parent.

(** [body] holds a field access [varName.field] for a field of
    [tokenFields]. *)
Definition accesses (body : Node) (varName : string)
    (tokenFields : list string) : Prop :=
  ∃ field,
    field ∈ tokenFields ∧
    rtc childOf body (SelectorExpr (Ident varName) field).

(** The member names taken for the use of a paginator. *)
Definition paginatorName (member : string) : Prop :=
  (∃ pre, pre ≠ "" ∧ member = pre +:+ "Paginator") ∨
  member = "HasMorePages" ∨ member = "NextPage".

(** The node sets [hasTokenAccess]. *)
Definition isTokenAccess (varName : string) (tokenFields : list string)
    (n : Node) : bool :=
  match n with
  | SelectorExpr X Sel =>
      existsb (λ tokenField,
                 bool_decide (Sel = tokenField) && isIdentNamed X varName)
              tokenFields
  | _ => false
  end.

(** The node sets [hasPaginatorUsage]. *)
Definition isPaginatorCall (n : Node) : bool :=
  match n with
  | CallExpr _ (SelectorExpr _ Sel) _ =>
      (bool_decide (9 < len Sel)
       && bool_decide (sliceFrom (Z.to_nat (len Sel - 9)) Sel = "Paginator"))
      || bool_decide (Sel = "HasMorePages") || bool_decide (Sel = "NextPage")
  | _ => false
  end.

(** The positions of the call expressions among [exprs], in order. *)
Definition callPositions (exprs : list Node) : list Pos :=
  omap (λ n, match n with
             | CallExpr pos _ _ => Some pos
             | _ => None
             end) exprs.





Module MoreExamples.

(** [{ for { ...; if result.NextToken == nil { break } } }] *)
Definition tokenLoopBody : Node :=
  OtherNode
    [ OtherNode
        [ OtherNode [SelectorExpr (Ident "result") "NextToken"; Ident "nil"];
          OtherNode [] ] ].

(** What is reported for [result, err := client.ListBuckets(ctx, input)]
    in a function that handles nothing. *)
Definition listBucketsDiagnostic : Diagnostic :=
  {| diagPos := 42;
     Message := buildErrorMessage ["NextToken"] "result"
                  {| methodName := "ListBuckets"; serviceName := "s3";
                     typeName := "ListBucketsOutput" |} |}.

(** A file of two functions: the first lists buckets and handles nothing,
    the second uses a paginator. *)
Definition twoFunctions (name : string) : File :=
  {| Filename := name;
     Decls :=
       [ FuncDeclNode
           (Some (OtherNode
                    [AssignStmt [Ident "result"; Ident "err"]
                       [Examples.listBucketsCall]]));
         FuncDeclNode (Some Examples.paginatorBody) ] |}.

End MoreExamples.
(** * Properties *)

(** ** Strings *)

Lemma append_cons (c : ascii) (a b : string) :
  String c a +:+ b = String c (a +:+ b).
Proof. reflexivity. Qed.

Lemma append_nil_l (s : string) : "" +:+ s = s.
Proof. reflexivity. Qed.

Lemma append_nil_r (s : string) : s +:+ "" = s.
Proof. induction s as [|c s IH]; [done|]. by rewrite append_cons, IH. Qed.

Lemma append_assoc (a b c : string) : (a +:+ b) +:+ c = a +:+ b +:+ c.
Proof.
  induction a as [|x a IH]; [done|]. by rewrite !append_cons, IH.
Qed.

Lemma countByte_append (c : ascii) (a b : string) :
  countByte c (a +:+ b) = (countByte c a + countByte c b)%nat.
Proof.
  induction a as [|x a IH]; [done|].
  rewrite append_cons. cbn [countByte]. rewrite IH. lia.
Qed.

Lemma Split_nonempty (s : string) (sep : ascii) : strings.Split s sep ≠ [].
Proof.
  destruct s as [|c s]; [done|]. cbn.
  case_decide; [done|]. by destruct (strings.Split s sep).
Qed.

Lemma Join_cons (e : string) (rest : list string) (sep : string) :
  rest ≠ [] → strings.Join (e :: rest) sep = e +:+ sep +:+ strings.Join rest sep.
Proof. by destruct rest. Qed.

Lemma Join_Split (s : string) (sep : ascii) :
  strings.Join (strings.Split s sep) (String sep "") = s.
Proof.
  induction s as [|c s IH]; [done|]. cbn [strings.Split].
  case_decide as Hc.
  - subst c. rewrite Join_cons by apply Split_nonempty. by rewrite IH.
  - pose proof (Split_nonempty s sep) as Hne.
    destruct (strings.Split s sep) as [|piece pieces]; [done|].
    destruct pieces as [|p2 pieces].
    + cbn in *. by rewrite IH.
    + rewrite Join_cons by done. rewrite Join_cons in IH by done.
      rewrite <- IH. done.
Qed.

Lemma Split_pieces (s : string) (sep : ascii) :
  Forall (λ piece, countByte sep piece = 0%nat) (strings.Split s sep).
Proof.
  induction s as [|c s IH]; cbn [strings.Split].
  - by repeat constructor.
  - case_decide as Hc; [by constructor|].
    destruct (strings.Split s sep) as [|piece pieces].
    + repeat constructor. cbn. by rewrite decide_False.
    + inversion_clear IH. constructor; [|done].
      cbn. by rewrite decide_False.
Qed.

Lemma Split_length (s : string) (sep : ascii) :
  length (strings.Split s sep) = S (countByte sep s).
Proof.
  induction s as [|c s IH]; cbn [strings.Split countByte]; [done|].
  case_decide as Hc; cbn [length]; [by rewrite IH|].
  destruct (strings.Split s sep); cbn in *; lia.
Qed.

(** ** The flag value *)

(** C10: [Set] never returns an error; [Set("")] leaves the slice as it
    was; for a non-empty [value] the new slice is the old one followed by
    the comma-separated segments of [value] (joined by commas they give
    [value] back, none holds a comma, and there is one more of them than
    there are commas), so a later occurrence of the flag adds to what the
    earlier ones stored. *)
Theorem Set_appends_segments (s : stringSliceFlag) (value : string) :
  (stringSliceFlag_Set s value).2 = None ∧
  stringSliceFlag_Set s "" = (s, None) ∧
  (value ≠ "" →
   ∃ segments,
     (stringSliceFlag_Set s value).1 = s ++ segments ∧
     strings.Join segments "," = value ∧
     Forall (λ piece, countByte "," piece = 0%nat) segments ∧
     length segments = S (countByte "," value)).
Proof.
  unfold stringSliceFlag_Set. split_and!.
  - by case_decide.
  - done.
  - intros Hne. rewrite decide_False by done.
    exists (strings.Split value ","). split_and!.
    + done.
    + apply Join_Split.
    + apply Split_pieces.
    + apply Split_length.
Qed.

Lemma Set_appends_segments_witness :
  "s3,dynamodb" ≠ "" ∧
  ∃ segments,
    (stringSliceFlag_Set ["ecs"] "s3,dynamodb").1 = ["ecs"] ++ segments ∧
    strings.Join segments "," = "s3,dynamodb" ∧
    Forall (λ piece, countByte "," piece = 0%nat) segments ∧
    length segments = S (countByte "," "s3,dynamodb").
Proof.
  split; [done|].
  apply (proj2 (proj2 (Set_appends_segments ["ecs"] "s3,dynamodb"))).
  done.
Defined.

(** ** Traversals return *)

Section Termination.
Context (G : TypeGraph).

Lemma unseen_mono (S1 S2 : gset TypeId) :
  S1 ⊆ S2 → (unseen G S2 ≤ unseen G S1)%nat.
Proof. intros H. apply subseteq_size. set_solver. Qed.

Lemma unseen_mark (t : TypeId) (seen : gset TypeId) :
  t ∈ dom G → t ∉ seen → (unseen G ({[t]} ∪ seen) < unseen G seen)%nat.
Proof.
  intros Hdom Hnew. apply subset_size. split; [set_solver|].
  intros Hsub. specialize (Hsub t). set_solver.
Qed.

Lemma asStruct_dom (t : TypeId) (fields : list Field) :
  asStruct G (underlyingOf G t) = Some fields → t ∈ dom G.
Proof.
  unfold asStruct, underlyingOf. intros H. apply elem_of_dom.
  destruct (G !! t) as [node|] eqn:Ht; [eauto|].
  rewrite Ht in H. done.
Qed.

Lemma returnsFrom_mono {A} (S0 S1 : gset TypeId) (m : Walk A) :
  S0 ⊆ S1 → returnsFrom S0 m → returnsFrom S1 m.
Proof. intros Hsub Hm seen Hseen. apply Hm. set_solver. Qed.

Lemma returnsFrom_wret {A} (S0 : gset TypeId) (a : A) :
  returnsFrom S0 (wret a).
Proof. intros seen _. by exists a, seen. Qed.

Lemma returnsFrom_wbind {A B} (S0 : gset TypeId) (m : Walk A)
    (k : A → Walk B) :
  returnsFrom S0 m → (∀ a, returnsFrom S0 (k a)) →
  returnsFrom S0 (wbind m k).
Proof.
  intros Hm Hk seen Hseen. unfold wbind.
  destruct (Hm seen Hseen) as (a & seen1 & -> & Hsub1).
  destruct (Hk a seen1) as (b & seen2 & -> & Hsub2); [set_solver|].
  exists b, seen2. split; [done|set_solver].
Qed.

Lemma returnsFrom_rangeLoop {E R} (S0 : gset TypeId)
    (body : E → Walk (option R)) (l : list E) :
  (∀ e, e ∈ l → returnsFrom S0 (body e)) →
  returnsFrom S0 (rangeLoop body l).
Proof.
  induction l as [|e l IH]; intros Hbody; cbn [rangeLoop].
  - apply returnsFrom_wret.
  - apply returnsFrom_wbind; [apply Hbody; left|].
    intros [r|]; [apply returnsFrom_wret|].
    apply IH. intros e' He'. apply Hbody. by right.
Qed.

(** The prelude the three traversals share: after [seen[t]] was found
    false and set, what remains runs from a larger map with fewer types
    unseen. *)
Lemma returnsFrom_marked {A} (S0 : gset TypeId) (t : TypeId) (zero : A)
    (rest : Walk A) :
  (∀ seen, S0 ⊆ seen → t ∉ seen → returnsFrom ({[t]} ∪ seen) rest) →
  returnsFrom S0
    (let* was := visited t in
     if was : bool then wret zero else let* _ := mark t in rest).
Proof.
  intros Hrest seen Hseen. unfold wbind, visited, mark.
  case_bool_decide as Hin; [by exists zero, seen|].
  destruct (Hrest seen Hseen Hin ({[t]} ∪ seen)) as (a & seen' & -> & Hsub);
    [done|].
  exists a, seen'. split; [done|set_solver].
Qed.

Lemma hasSpecificField_returns (fieldName : string) (fuel : nat)
    (t : TypeId) (S0 : gset TypeId) :
  (unseen G S0 < fuel)%nat →
  returnsFrom S0 (hasSpecificField fuel G t fieldName).
Proof.
  revert t S0. induction fuel as [|fuel IH]; intros t S0 Hfuel; [lia|].
  cbn [hasSpecificField]. apply returnsFrom_marked.
  intros seen Hseen Hnew.
  destruct (asStruct G (underlyingOf G (deref G t))) as [fields|] eqn:Hst;
    [|apply returnsFrom_wret].
  destruct (hasFieldNamed fields fieldName); [apply returnsFrom_wret|].
  pose proof (unseen_mark _ _ (asStruct_dom _ _ Hst) Hnew).
  pose proof (unseen_mono _ _ Hseen).
  apply returnsFrom_wbind; [|intros; apply returnsFrom_wret].
  apply returnsFrom_rangeLoop. intros field _.
  destruct (fEmbedded field); [|apply returnsFrom_wret].
  apply returnsFrom_wbind; [apply IH; lia|intros; apply returnsFrom_wret].
Qed.

Lemma hasPaginationTokenFieldRecursive_returns (config : Config)
    (fuel : nat) (t : TypeId) (S0 : gset TypeId) :
  (unseen G S0 < fuel)%nat →
  returnsFrom S0 (hasPaginationTokenFieldRecursive fuel config G t).
Proof.
  revert t S0. induction fuel as [|fuel IH]; intros t S0 Hfuel; [lia|].
  cbn [hasPaginationTokenFieldRecursive]. apply returnsFrom_marked.
  intros seen Hseen Hnew.
  destruct (asStruct G (underlyingOf G (deref G t))) as [fields|] eqn:Hst;
    [|apply returnsFrom_wret].
  destruct (find _ _); [apply returnsFrom_wret|].
  pose proof (unseen_mark _ _ (asStruct_dom _ _ Hst) Hnew).
  pose proof (unseen_mono _ _ Hseen).
  apply returnsFrom_wbind; [|intros; apply returnsFrom_wret].
  apply returnsFrom_rangeLoop. intros field _.
  destruct (fEmbedded field); [|apply returnsFrom_wret].
  apply returnsFrom_wbind; [apply IH; lia|intros; apply returnsFrom_wret].
Qed.

Lemma isAWSSDKTypeRecursive_returns (fuel : nat) (t : TypeId)
    (S0 : gset TypeId) :
  (unseen G S0 < fuel)%nat →
  returnsFrom S0 (isAWSSDKTypeRecursive fuel G t).
Proof.
  revert t S0. induction fuel as [|fuel IH]; intros t S0 Hfuel; [lia|].
  cbn [isAWSSDKTypeRecursive]. apply returnsFrom_marked.
  intros seen Hseen Hnew.
  destruct (fromAWSSDK G (deref G t)); [apply returnsFrom_wret|].
  destruct (asStruct G (underlyingOf G (deref G t))) as [fields|] eqn:Hst;
    [|apply returnsFrom_wret].
  pose proof (unseen_mark _ _ (asStruct_dom _ _ Hst) Hnew).
  pose proof (unseen_mono _ _ Hseen).
  apply returnsFrom_wbind; [|intros; apply returnsFrom_wret].
  apply returnsFrom_rangeLoop. intros field _.
  apply returnsFrom_wbind; [apply IH; lia|intros; apply returnsFrom_wret].
Qed.

(** A larger recursion bound changes nothing of what a traversal returns. *)
Lemma walkLe_refl {A} (m : Walk A) : walkLe m m.
Proof. by intros seen r. Qed.

Lemma walkLe_wbind {A B} (m m' : Walk A) (k k' : A → Walk B) :
  walkLe m m' → (∀ a, walkLe (k a) (k' a)) → walkLe (wbind m k) (wbind m' k').
Proof.
  intros Hm Hk seen r. unfold wbind.
  destruct (m seen) as [[a seen1]|] eqn:Hrun; [|done].
  rewrite (Hm _ _ Hrun). apply Hk.
Qed.

Lemma walkLe_rangeLoop {E R} (body body' : E → Walk (option R)) (l : list E) :
  (∀ e, walkLe (body e) (body' e)) →
  walkLe (rangeLoop body l) (rangeLoop body' l).
Proof.
  intros Hbody. induction l as [|e l IH]; cbn [rangeLoop];
    [apply walkLe_refl|].
  apply walkLe_wbind; [done|]. intros [r|]; [apply walkLe_refl|done].
Qed.

Ltac walkLe_step IH :=
  first
    [ apply IH
    | apply walkLe_refl
    | apply walkLe_wbind; [|intros ?]
    | apply walkLe_rangeLoop; intros ?
    | match goal with
      | |- walkLe (if ?b then _ else _) _ => destruct b
      | |- walkLe (match ?o with Some _ => _ | None => _ end) _ => destruct o
      end ].

Lemma hasSpecificField_fuel_S (fieldName : string) (fuel : nat)
    (t : TypeId) :
  walkLe (hasSpecificField fuel G t fieldName)
         (hasSpecificField (S fuel) G t fieldName).
Proof.
  revert t. induction fuel as [|fuel IH]; intros t; [by intros seen r|].
  remember (S fuel) as fuel1 eqn:Hfuel1.
  cbn [hasSpecificField]. rewrite Hfuel1 at 1. cbn [hasSpecificField].
  repeat walkLe_step IH.
Qed.

Lemma hasSpecificField_fuel (fieldName : string) (fuel fuel' : nat)
    (t : TypeId) :
  (fuel ≤ fuel')%nat →
  walkLe (hasSpecificField fuel G t fieldName)
         (hasSpecificField fuel' G t fieldName).
Proof.
  intros Hle. induction Hle as [|fuel' _ IH]; [apply walkLe_refl|].
  intros seen r Hrun. by apply hasSpecificField_fuel_S, IH.
Qed.

Lemma hasPaginationTokenFieldRecursive_fuel_S (config : Config)
    (fuel : nat) (t : TypeId) :
  walkLe (hasPaginationTokenFieldRecursive fuel config G t)
         (hasPaginationTokenFieldRecursive (S fuel) config G t).
Proof.
  revert t. induction fuel as [|fuel IH]; intros t; [by intros seen r|].
  remember (S fuel) as fuel1 eqn:Hfuel1.
  cbn [hasPaginationTokenFieldRecursive]. rewrite Hfuel1 at 1.
  cbn [hasPaginationTokenFieldRecursive].
  repeat walkLe_step IH.
Qed.

Lemma hasPaginationTokenFieldRecursive_fuel (config : Config)
    (fuel fuel' : nat) (t : TypeId) :
  (fuel ≤ fuel')%nat →
  walkLe (hasPaginationTokenFieldRecursive fuel config G t)
         (hasPaginationTokenFieldRecursive fuel' config G t).
Proof.
  intros Hle. induction Hle as [|fuel' _ IH]; [apply walkLe_refl|].
  intros seen r Hrun. by apply hasPaginationTokenFieldRecursive_fuel_S, IH.
Qed.

Lemma isAWSSDKTypeRecursive_fuel_S (fuel : nat) (t : TypeId) :
  walkLe (isAWSSDKTypeRecursive fuel G t)
         (isAWSSDKTypeRecursive (S fuel) G t).
Proof.
  revert t. induction fuel as [|fuel IH]; intros t; [by intros seen r|].
  remember (S fuel) as fuel1 eqn:Hfuel1.
  cbn [isAWSSDKTypeRecursive]. rewrite Hfuel1 at 1. cbn [isAWSSDKTypeRecursive].
  repeat walkLe_step IH.
Qed.

Lemma isAWSSDKTypeRecursive_fuel (fuel fuel' : nat) (t : TypeId) :
  (fuel ≤ fuel')%nat →
  walkLe (isAWSSDKTypeRecursive fuel G t)
         (isAWSSDKTypeRecursive fuel' G t).
Proof.
  intros Hle. induction Hle as [|fuel' _ IH]; [apply walkLe_refl|].
  intros seen r Hrun. by apply isAWSSDKTypeRecursive_fuel_S, IH.
Qed.

Lemma walkFuel_enough (seen : gset TypeId) :
  (unseen G seen < walkFuel G)%nat.
Proof.
  unfold walkFuel, unseen. rewrite <- size_dom.
  apply Nat.lt_succ_r, subseteq_size. set_solver.
Qed.

End Termination.

(** ** What a traversal finds *)

Lemma wbind_Some {A B} (m : Walk A) (k : A → Walk B) seen b seen' :
  wbind m k seen = Some (b, seen') →
  ∃ a seen1, m seen = Some (a, seen1) ∧ k a seen1 = Some (b, seen').
Proof.
  unfold wbind. destruct (m seen) as [[a seen1]|]; [|done]. eauto.
Qed.

Lemma wret_Some {A} (a b : A) seen seen' :
  wret a seen = Some (b, seen') → b = a ∧ seen' = seen.
Proof. unfold wret. by intros [= -> ->]. Qed.

Lemma marked_Some {A} (t : TypeId) (zero : A) (rest : Walk A) seen a seen' :
  wbind (visited t)
    (λ was : bool, if was then wret zero else wbind (mark t) (λ _, rest)) seen
    = Some (a, seen') →
  (t ∈ seen ∧ a = zero ∧ seen' = seen) ∨
  ((t ∉ seen) ∧ rest ({[t]} ∪ seen) = Some (a, seen')).
Proof.
  unfold wbind, visited, mark, wret.
  case_bool_decide; [intros [= <- <-]; by left|by right].
Qed.

Lemma rangeLoop_Some {E R} (Q : R → Prop) (body : E → Walk (option R))
    (l : list E) :
  (∀ e s1 s2 r, e ∈ l → body e s1 = Some (Some r, s2) → Q r) →
  ∀ s s' r, rangeLoop body l s = Some (Some r, s') → Q r.
Proof.
  induction l as [|e l IH]; intros Hbody s s' r; cbn [rangeLoop].
  - by intros [? _]%wret_Some.
  - intros (r1 & s1 & He & Hk)%wbind_Some. destruct r1 as [r1|].
    + apply wret_Some in Hk as [[= ->] ->]. apply (Hbody e s s1 r1); [left|done].
    + apply (IH (λ e' a b r' He', Hbody e' a b r' (list_elem_of_further _ _ _ He'))
                s1 s' r Hk).
Qed.

Lemma rangeLoop_None {E R} (I : relation (gset TypeId))
    (P : E → gset TypeId → Prop) (body : E → Walk (option R)) (l : list E) :
  Reflexive I → Transitive I →
  (∀ e s1 s2, P e s1 → I s1 s2 → P e s2) →
  (∀ e s1 s2, e ∈ l → body e s1 = Some (None, s2) → I s1 s2 ∧ P e s2) →
  ∀ s s', rangeLoop body l s = Some (None, s') →
          I s s' ∧ ∀ e, e ∈ l → P e s'.
Proof.
  intros Hrefl Htrans Hkeep.
  induction l as [|e l IH]; intros Hbody s s'; cbn [rangeLoop].
  - intros [_ ->]%wret_Some. split; [done|]. by intros e ?%elem_of_nil.
  - intros (r1 & s1 & He & Hk)%wbind_Some. destruct r1 as [r1|].
    { by apply wret_Some in Hk as [? _]. }
    destruct (Hbody e s s1) as [HI HP]; [left|done|].
    destruct (IH (λ e' a b He', Hbody e' a b (list_elem_of_further _ _ _ He'))
                 s1 s' Hk) as [HI' HP'].
    split; [by etrans|].
    intros e' [->|He']%elem_of_cons; [by eapply Hkeep|by apply HP'].
Qed.

Section Explored.
Context (hit : TypeId → Prop) (edge : relation TypeId).

Lemma explored_refl : Reflexive (explored hit edge).
Proof. intros seen. split; [done|]. by intros x ??. Qed.

Lemma explored_trans : Transitive (explored hit edge).
Proof.
  intros s1 s2 s3 [Hsub12 H12] [Hsub23 H23]. split; [set_solver|].
  intros x Hx3 Hx1. destruct (decide (x ∈ s2)) as [Hx2|Hx2].
  - destruct (H12 x Hx2 Hx1) as [Hhit Hedge]. split; [done|].
    intros v Hv. apply Hsub23. by apply Hedge.
  - by apply H23.
Qed.

Lemma explored_mark (t : TypeId) (seen seen' : gset TypeId) :
  explored hit edge ({[t]} ∪ seen) seen' →
  ¬ hit t → (∀ v, edge t v → v ∈ seen') →
  explored hit edge seen seen'.
Proof.
  intros [Hsub H] Hhit Hedge. split; [set_solver|].
  intros x Hx' Hx. destruct (decide (x = t)) as [->|Hne]; [done|].
  apply H; [done|set_solver].
Qed.

Lemma explored_closed (seen' : gset TypeId) (u v : TypeId) :
  explored hit edge ∅ seen' → u ∈ seen' → rtc edge u v →
  v ∈ seen' ∧ ¬ hit v.
Proof.
  intros [_ H] Hu Hreach. induction Hreach as [u|u w v Hstep _ IH].
  - split; [done|]. apply H; [done|set_solver].
  - apply IH. destruct (H u Hu) as [_ Hedge]; [set_solver|]. by apply Hedge.
Qed.
End Explored.

Lemma declares_structOf (G : TypeGraph) (u : TypeId) (fields : list Field)
    (name : string) :
  structOf G u = Some fields →
  declares G u name ↔ hasFieldNamed fields name = true.
Proof.
  intros Hst. split; [|by exists fields].
  intros (fields' & Hst' & Hname). congruence.
Qed.

Lemma present_direct (G : TypeGraph) (t : TypeId) (fields : list Field)
    (name : string) :
  structOf G (deref G t) = Some fields → hasFieldNamed fields name = true →
  present G t name.
Proof. intros Hst Hname. exists (deref G t). split; [done|by exists fields]. Qed.

Lemma present_embedded (G : TypeGraph) (t : TypeId) (fields : list Field)
    (field : Field) (name : string) :
  structOf G (deref G t) = Some fields → field ∈ fields →
  fEmbedded field = true → present G (fType field) name →
  present G t name.
Proof.
  intros Hst Hin Hemb (v & Hreach & Hdecl). exists v. split; [|done].
  eapply rtc_l; [|done]. by exists fields, field.
Qed.

(** *** [hasSpecificField] *)

Section SpecificField.
Context (G : TypeGraph) (fieldName : string).

Lemma hasSpecificField_true (fuel : nat) (t : TypeId) seen seen' :
  hasSpecificField fuel G t fieldName seen = Some (true, seen') →
  present G t fieldName.
Proof.
  revert t seen seen'. induction fuel as [|fuel IH]; intros t seen seen';
    [done|].
  cbn [hasSpecificField].
  intros [(_ & [=] & _)|[Hnew Hrest]]%marked_Some.
  fold (structOf G (deref G t)) in Hrest.
  destruct (structOf G (deref G t)) as [fields|] eqn:Hst;
    [|by apply wret_Some in Hrest as [? _]].
  destruct (hasFieldNamed fields fieldName) eqn:Hdirect.
  { by eapply present_direct. }
  apply wbind_Some in Hrest as (found & s1 & Hloop & Hret).
  apply wret_Some in Hret as [Hfound _].
  destruct found as [[]|]; [|done..].
  revert Hloop. apply (rangeLoop_Some (λ _, present G t fieldName)).
  intros field s2 s3 r Hin.
  destruct (fEmbedded field) eqn:Hemb; [|by intros [? _]%wret_Some].
  intros ([] & s4 & Hcall & Hret)%wbind_Some;
    [|by apply wret_Some in Hret as [? _]].
  eapply present_embedded; eauto.
Qed.

Lemma hasSpecificField_false (fuel : nat) (t : TypeId) seen seen' :
  hasSpecificField fuel G t fieldName seen = Some (false, seen') →
  explored (λ u, declares G u fieldName) (embeds G) seen seen' ∧
  deref G t ∈ seen'.
Proof.
  revert t seen seen'. induction fuel as [|fuel IH]; intros t seen seen';
    [done|].
  cbn [hasSpecificField].
  intros [(Hin & _ & ->)|[Hnew Hrest]]%marked_Some.
  { split; [apply explored_refl|done]. }
  fold (structOf G (deref G t)) in Hrest.
  destruct (structOf G (deref G t)) as [fields|] eqn:Hst.
  - destruct (hasFieldNamed fields fieldName) eqn:Hdirect;
      [by apply wret_Some in Hrest as [? _]|].
    apply wbind_Some in Hrest as (found & s1 & Hloop & Hret).
    apply wret_Some in Hret as [Hfound ->].
    destruct found as [r|].
    { cbn in Hfound. subst r.
      apply (rangeLoop_Some (λ r, r = true)) in Hloop; [done|].
      intros field s2 s3 r _. destruct (fEmbedded field);
        [|by intros [? _]%wret_Some].
      intros ([] & s4 & _ & Hret)%wbind_Some;
        apply wret_Some in Hret as [? _]; by simplify_eq. }
    eapply (rangeLoop_None
              (explored (λ u, declares G u fieldName) (embeds G))
              (λ field s, fEmbedded field = true → deref G (fType field) ∈ s))
      in Hloop as [Hexp Hfields].
    + assert (deref G t ∈ s1) by (destruct Hexp; set_solver).
      split; [|done]. apply (explored_mark _ _ (deref G t)); [done|..].
      * rewrite (declares_structOf _ _ _ _ Hst). congruence.
      * intros v (fields' & field & Hst' & Hin & Hemb & ->).
        simplify_eq. by apply Hfields.
    + apply explored_refl.
    + apply explored_trans.
    + intros field s2 s3 Hin [Hsub _] Hemb. set_solver.
    + intros field s2 s3 _. destruct (fEmbedded field);
        [|intros [_ ->]%wret_Some; split; [apply explored_refl|done]].
      intros ([] & s4 & Hcall & Hret)%wbind_Some;
        apply wret_Some in Hret as [? ->]; [done|].
      apply IH in Hcall as [??]. done.
  - apply wret_Some in Hrest as [_ ->]. split; [|set_solver].
    apply (explored_mark _ _ (deref G t)); [apply explored_refl|..].
    + intros (fields & ? & _). congruence.
    + intros v (fields & field & ? & _). congruence.
Qed.

(** With a map of its own, the traversal decides structural presence. *)
Lemma hasSpecificField_fresh (t : TypeId) :
  result false (hasSpecificField (walkFuel G) G t fieldName ∅) = true ↔
  present G t fieldName.
Proof.
  destruct (hasSpecificField_returns G fieldName (walkFuel G) t ∅
              (walkFuel_enough G ∅) ∅) as ([] & seen' & Hrun & _); [done|..];
    rewrite Hrun; cbn [result].
  - split; [intros _|done]. by eapply hasSpecificField_true.
  - split; [done|]. intros (v & Hreach & Hdecl).
    apply hasSpecificField_false in Hrun as [Hexp Hin].
    by destruct (explored_closed _ _ _ _ _ Hexp Hin Hreach).
Qed.
End SpecificField.

(** *** [isAWSSDKPackage] *)

Lemma HasPrefix_spec (s prefix : string) :
  strings.HasPrefix s prefix = true ↔ ∃ rest, s = prefix +:+ rest.
Proof.
  revert s. induction prefix as [|p prefix IH]; intros s; cbn [strings.HasPrefix].
  - split; [intros _; by exists s|done].
  - destruct s as [|c s]; [split; [done|by intros [rest [=]]]|].
    case_decide as Hpc.
    + subst c. rewrite IH. split; intros [rest Hrest]; exists rest.
      * by rewrite append_cons, Hrest.
      * rewrite append_cons in Hrest. by simplify_eq.
    + split; [done|]. intros [rest Hrest].
      rewrite append_cons in Hrest. by simplify_eq.
Qed.

Lemma Index_found (s substr : string) :
  0 ≤ strings.Index s substr ↔ ∃ pre post, s = pre +:+ substr +:+ post.
Proof.
  induction s as [|c s IH]; cbn [strings.Index].
  - destruct (strings.HasPrefix "" substr) eqn:Hp.
    + split; [intros _|done]. apply HasPrefix_spec in Hp as [rest ->].
      by exists "", rest.
    + split; [done|]. intros (pre & post & Hs).
      destruct pre; [|done]. rewrite append_nil_l in Hs.
      assert (strings.HasPrefix "" substr = true); [|congruence].
      apply HasPrefix_spec. by exists post.
  - destruct (strings.HasPrefix (String c s) substr) eqn:Hp.
    + split; [intros _|done]. apply HasPrefix_spec in Hp as [rest ->].
      by exists "", rest.
    + case_decide as Hi.
      * split; [done|]. intros (pre & post & Hs). destruct pre as [|x pre].
        { rewrite append_nil_l in Hs.
          assert (strings.HasPrefix (String c s) substr = true); [|congruence].
          apply HasPrefix_spec. by exists post. }
        rewrite append_cons in Hs. simplify_eq.
        assert (0 ≤ strings.Index (pre +:+ substr +:+ post) substr); [|lia].
        apply IH. by exists pre, post.
      * split; [intros _|lia].
        destruct (proj1 IH) as (pre & post & ->); [lia|].
        by exists (String c pre), post.
Qed.

Lemma isAWSSDKPackage_spec (pkgPath : string) :
  isAWSSDKPackage pkgPath = true ↔
  ∃ pre post, pkgPath = pre +:+ "aws-sdk-go-v2/service/" +:+ post.
Proof.
  unfold isAWSSDKPackage, strings.Contains.
  rewrite bool_decide_eq_true. apply Index_found.
Qed.

Lemma fromAWSSDK_spec (G : TypeGraph) (v : TypeId) :
  fromAWSSDK G v = true ↔ trustedNamed G v.
Proof.
  unfold fromAWSSDK, trustedNamed. split.
  - destruct (G !! v) as [[|name [path|] u| | |]|]; try done.
    intros (pre & post & ->)%isAWSSDKPackage_spec. by eexists _, _, _, _, _.
  - intros (name & path & u & pre & post & -> & ->).
    apply isAWSSDKPackage_spec. by eexists _, _.
Qed.

(** *** [isAWSSDKTypeRecursive] *)

Section Provenance.
Context (G : TypeGraph).

Lemma isAWSSDKTypeRecursive_true (fuel : nat) (t : TypeId) seen seen' :
  isAWSSDKTypeRecursive fuel G t seen = Some (true, seen') →
  trustedWithin G t.
Proof.
  revert t seen seen'. induction fuel as [|fuel IH]; intros t seen seen';
    [done|].
  cbn [isAWSSDKTypeRecursive].
  intros [(_ & [=] & _)|[Hnew Hrest]]%marked_Some.
  destruct (fromAWSSDK G (deref G t)) eqn:Hsdk.
  { exists (deref G t). split; [done|]. by apply fromAWSSDK_spec. }
  fold (structOf G (deref G t)) in Hrest.
  destruct (structOf G (deref G t)) as [fields|] eqn:Hst;
    [|by apply wret_Some in Hrest as [? _]].
  apply wbind_Some in Hrest as (found & s1 & Hloop & Hret).
  apply wret_Some in Hret as [Hfound _].
  destruct found as [[]|]; [|done..].
  revert Hloop. apply (rangeLoop_Some (λ _, trustedWithin G t)).
  intros field s2 s3 r Hin.
  intros ([] & s4 & Hcall & Hret)%wbind_Some;
    [|by apply wret_Some in Hret as [? _]].
  apply IH in Hcall as (v & Hreach & Hv). exists v. split; [|done].
  eapply rtc_l; [|done]. by exists fields, field.
Qed.

Lemma isAWSSDKTypeRecursive_false (fuel : nat) (t : TypeId) seen seen' :
  isAWSSDKTypeRecursive fuel G t seen = Some (false, seen') →
  explored (trustedNamed G) (holds G) seen seen' ∧ deref G t ∈ seen'.
Proof.
  revert t seen seen'. induction fuel as [|fuel IH]; intros t seen seen';
    [done|].
  cbn [isAWSSDKTypeRecursive].
  intros [(Hin & _ & ->)|[Hnew Hrest]]%marked_Some.
  { split; [apply explored_refl|done]. }
  destruct (fromAWSSDK G (deref G t)) eqn:Hsdk;
    [by apply wret_Some in Hrest as [? _]|].
  assert (¬ trustedNamed G (deref G t)) as Hno.
  { rewrite <- fromAWSSDK_spec. congruence. }
  fold (structOf G (deref G t)) in Hrest.
  destruct (structOf G (deref G t)) as [fields|] eqn:Hst.
  - apply wbind_Some in Hrest as (found & s1 & Hloop & Hret).
    apply wret_Some in Hret as [Hfound ->].
    destruct found as [r|].
    { cbn in Hfound. subst r.
      apply (rangeLoop_Some (λ r, r = true)) in Hloop; [done|].
      intros field s2 s3 r _.
      intros ([] & s4 & _ & Hret)%wbind_Some;
        apply wret_Some in Hret as [? _]; by simplify_eq. }
    eapply (rangeLoop_None (explored (trustedNamed G) (holds G))
              (λ field s, deref G (fType field) ∈ s))
      in Hloop as [Hexp Hfields].
    + assert (deref G t ∈ s1) by (destruct Hexp; set_solver).
      split; [|done]. apply (explored_mark _ _ (deref G t)); [done..|].
      intros v (fields' & field & Hst' & Hin & ->).
      simplify_eq. by apply Hfields.
    + apply explored_refl.
    + apply explored_trans.
    + intros field s2 s3 Hin [Hsub _]. set_solver.
    + intros field s2 s3 _.
      intros ([] & s4 & Hcall & Hret)%wbind_Some;
        apply wret_Some in Hret as [? ->]; [done|].
      by apply IH in Hcall.
  - apply wret_Some in Hrest as [_ ->]. split; [|set_solver].
    apply (explored_mark _ _ (deref G t)); [apply explored_refl|done|].
    intros v (fields & field & ? & _). congruence.
Qed.

Lemma isAWSSDKType_run (t : TypeId) :
  ∃ seen', isAWSSDKTypeRecursive (walkFuel G) G t ∅
           = Some (isAWSSDKType G t, seen').
Proof.
  unfold isAWSSDKType.
  destruct (isAWSSDKTypeRecursive_returns G (walkFuel G) t ∅
              (walkFuel_enough G ∅) ∅) as (b & seen' & -> & _); [done|].
  by exists seen'.
Qed.

Lemma isAWSSDKType_trustedWithin (t : TypeId) :
  isAWSSDKType G t = true ↔ trustedWithin G t.
Proof.
  destruct (isAWSSDKType_run t) as [seen' Hrun].
  destruct (isAWSSDKType G t).
  - split; [intros _|done]. by eapply isAWSSDKTypeRecursive_true.
  - split; [done|]. intros (v & Hreach & Hv).
    apply isAWSSDKTypeRecursive_false in Hrun as [Hexp Hin].
    by destruct (explored_closed _ _ _ _ _ Hexp Hin Hreach).
Qed.
End Provenance.

(** *** [hasPaginationTokenFieldRecursive] *)

Lemma find_first {A} (P : A → bool) (l : list A) (x : A) :
  find P l = Some x →
  ∃ before after,
    l = before ++ x :: after ∧ P x = true ∧ ∀ y, y ∈ before → P y = false.
Proof.
  induction l as [|a l IH]; [done|]. cbn [find].
  destruct (P a) eqn:Ha.
  - intros [= ->]. exists [], l. split_and!; [done..|]. by intros y ?%elem_of_nil.
  - intros (before & after & -> & Hx & Hbefore)%IH.
    exists (a :: before), after. split_and!; [done..|].
    intros y [->|Hy]%elem_of_cons; [done|by apply Hbefore].
Qed.

Lemma find_first_unique {A} (P : A → bool) (l before after : list A) (x : A) :
  l = before ++ x :: after → P x = true → (∀ y, y ∈ before → P y = false) →
  find P l = Some x.
Proof.
  intros -> Hx. induction before as [|a before IH]; intros Hbefore; cbn.
  - by rewrite Hx.
  - rewrite (Hbefore a) by left. apply IH. intros y Hy. apply Hbefore. by right.
Qed.

Lemma find_is_Some {A} (P : A → bool) (l : list A) (x : A) :
  x ∈ l → P x = true → is_Some (find P l).
Proof.
  induction l as [|a l IH]; [by intros ?%elem_of_nil|]. cbn [find].
  intros [->|Hin]%elem_of_cons Hx; [by rewrite Hx|].
  destruct (P a); [done|by apply IH].
Qed.

Lemma hasFieldNamed_elem (fields : list Field) (name : string) :
  hasFieldNamed fields name = true ↔ name ∈ fName <$> fields.
Proof.
  unfold hasFieldNamed. rewrite existsb_exists, list_elem_of_fmap.
  split.
  - intros (field & Hin%list_elem_of_In & Hname%bool_decide_eq_true).
    by exists field.
  - intros (field & -> & Hin). exists field.
    split; [by apply list_elem_of_In|by apply bool_decide_eq_true].
Qed.

Lemma hasFieldNamed_Permutation (fields fields' : list Field) (name : string) :
  fields ≡ₚ fields' → hasFieldNamed fields name = hasFieldNamed fields' name.
Proof.
  intros Hperm. apply eq_true_iff_eq. rewrite !hasFieldNamed_elem.
  by rewrite Hperm.
Qed.

Section TokenField.
Context (config : Config) (G : TypeGraph).

(** A field declared by the struct itself is returned before any
    embedded member is looked at. *)
Lemma hasPaginationTokenFieldRecursive_direct (fuel : nat) (t : TypeId)
    (seen : gset TypeId) (fields : list Field) (tokenField : string) :
  deref G t ∉ seen → structOf G (deref G t) = Some fields →
  find (hasFieldNamed fields) (getPaginationTokenFields config)
    = Some tokenField →
  hasPaginationTokenFieldRecursive (S fuel) config G t seen
    = Some (tokenField, {[deref G t]} ∪ seen).
Proof.
  intros Hnew Hst Hfind. cbn [hasPaginationTokenFieldRecursive].
  unfold wbind, visited, mark. rewrite bool_decide_eq_false_2 by done.
  fold (structOf G (deref G t)). by rewrite Hst, Hfind.
Qed.

Lemma hasPaginationTokenFieldRecursive_found (fuel : nat) (t : TypeId)
    seen seen' (r : string) :
  hasPaginationTokenFieldRecursive fuel config G t seen = Some (r, seen') →
  r ≠ "" →
  present G t r ∧ r ∈ getPaginationTokenFields config.
Proof.
  revert t seen seen' r.
  induction fuel as [|fuel IH]; intros t seen seen' r; [done|].
  cbn [hasPaginationTokenFieldRecursive].
  intros [(_ & -> & _)|[Hnew Hrest]]%marked_Some Hr; [done|].
  fold (structOf G (deref G t)) in Hrest.
  destruct (structOf G (deref G t)) as [fields|] eqn:Hst;
    [|by apply wret_Some in Hrest as [-> _]].
  destruct (find _ _) as [tokenField|] eqn:Hfind.
  { apply wret_Some in Hrest as [-> _].
    apply find_some in Hfind as [Hin%list_elem_of_In Hdirect].
    split; [by eapply present_direct|done]. }
  apply wbind_Some in Hrest as (found & s1 & Hloop & Hret).
  apply wret_Some in Hret as [-> _].
  destruct found as [r0|]; [|done]. cbn [default] in Hr |- *.
  revert Hloop.
  apply (rangeLoop_Some
           (λ r, present G t r ∧ r ∈ getPaginationTokenFields config)).
  intros field s2 s3 r' Hin.
  destruct (fEmbedded field) eqn:Hemb; [|by intros [? _]%wret_Some].
  intros (tokenField & s4 & Hcall & Hret)%wbind_Some.
  apply wret_Some in Hret as [Hret _]. case_decide as Hne; [|done].
  simplify_eq. apply IH in Hcall as [Hpresent Hcand]; [|done].
  split; [by eapply present_embedded|done].
Qed.

(** On a type that is marked already the traversals stop at once. *)
Lemma hasPaginationTokenFieldRecursive_visited (fuel : nat) (t : TypeId)
    (seen : gset TypeId) :
  deref G t ∈ seen →
  hasPaginationTokenFieldRecursive (S fuel) config G t seen = Some ("", seen).
Proof.
  intros Hin. cbn [hasPaginationTokenFieldRecursive].
  unfold wbind, visited. by rewrite bool_decide_eq_true_2.
Qed.

Lemma hasSpecificField_visited (fuel : nat) (t : TypeId) (fieldName : string)
    (seen : gset TypeId) :
  deref G t ∈ seen →
  hasSpecificField (S fuel) G t fieldName seen = Some (false, seen).
Proof.
  intros Hin. cbn [hasSpecificField].
  unfold wbind, visited. by rewrite bool_decide_eq_true_2.
Qed.
End TokenField.

(** ** Cycle safety *)

(** C4: on every type graph, cyclic or not, each of the three traversals
    returns once its recursion bound exceeds the number of types not yet
    marked, whatever the map it starts from; it only adds to the map, and
    a larger bound gives the same return.  The bound [walkFuel G] of the
    entry points always exceeds that number.  In particular, for a named
    struct type [n] that embeds a pointer [p] to itself, in which no
    candidate token field and not [fieldName] is structurally present and
    within which no trusted named type is held, the two field checks return
    the empty result and the provenance check returns false, from [n] and
    from [p] alike. *)
Theorem walks_terminate :
  (∀ (G : TypeGraph) seen, (unseen G seen < walkFuel G)%nat) ∧
  (∀ G fieldName fuel t seen,
     (unseen G seen < fuel)%nat →
     ∃ b seen',
       seen ⊆ seen' ∧
       ∀ fuel', (fuel ≤ fuel')%nat →
                hasSpecificField fuel' G t fieldName seen = Some (b, seen')) ∧
  (∀ config G fuel t seen,
     (unseen G seen < fuel)%nat →
     ∃ r seen',
       seen ⊆ seen' ∧
       ∀ fuel', (fuel ≤ fuel')%nat →
                hasPaginationTokenFieldRecursive fuel' config G t seen
                  = Some (r, seen')) ∧
  (∀ G fuel t seen,
     (unseen G seen < fuel)%nat →
     ∃ b seen',
       seen ⊆ seen' ∧
       ∀ fuel', (fuel ≤ fuel')%nat →
                isAWSSDKTypeRecursive fuel' G t seen = Some (b, seen')) ∧
  (∀ config (G : TypeGraph) n p name pkg u fields field fieldName,
     G !! p = Some (Pointer n) →
     G !! n = Some (Named name pkg u) →
     G !! u = Some (Struct fields) →
     field ∈ fields → fEmbedded field = true → fType field = p →
     (∀ c, c ∈ getPaginationTokenFields config → ¬ present G n c) →
     ¬ present G n fieldName →
     ¬ trustedWithin G n →
     ∀ t fuel seen,
       t = n ∨ t = p → (unseen G seen < fuel)%nat →
       (∃ seen', hasPaginationTokenFieldRecursive fuel config G t seen
                   = Some ("", seen')) ∧
       (∃ seen', hasSpecificField fuel G t fieldName seen
                   = Some (false, seen')) ∧
       (∃ seen', isAWSSDKTypeRecursive fuel G t seen = Some (false, seen'))).
Proof.
  split_and!.
  - apply walkFuel_enough.
  - intros G fieldName fuel t seen Hfuel.
    destruct (hasSpecificField_returns G fieldName fuel t seen Hfuel seen)
      as (b & seen' & Hrun & Hsub); [done|].
    exists b, seen'. split; [done|]. intros fuel' Hle.
    by apply (hasSpecificField_fuel G fieldName fuel fuel' t Hle).
  - intros config G fuel t seen Hfuel.
    destruct (hasPaginationTokenFieldRecursive_returns G config fuel t seen
                Hfuel seen) as (r & seen' & Hrun & Hsub); [done|].
    exists r, seen'. split; [done|]. intros fuel' Hle.
    by apply (hasPaginationTokenFieldRecursive_fuel G config fuel fuel' t Hle).
  - intros G fuel t seen Hfuel.
    destruct (isAWSSDKTypeRecursive_returns G fuel t seen Hfuel seen)
      as (b & seen' & Hrun & Hsub); [done|].
    exists b, seen'. split; [done|]. intros fuel' Hle.
    by apply (isAWSSDKTypeRecursive_fuel G fuel fuel' t Hle).
  - intros config G n p name pkg u fields field fieldName Hp Hn Hu Hin Hemb Hty
      Htoken Hfield Htrust t fuel seen Ht Hfuel.
    assert (deref G t = deref G n) as Hderef.
    { destruct Ht as [->| ->]; [done|]. unfold deref. by rewrite Hp, Hn. }
    assert (∀ c, present G t c ↔ present G n c) as Hpresent.
    { intros c. unfold present. by rewrite Hderef. }
    split_and!.
    + destruct (hasPaginationTokenFieldRecursive_returns G config fuel t seen
                  Hfuel seen) as (r & seen' & Hrun & _); [done|].
      exists seen'. destruct (decide (r = "")) as [->|Hr]; [done|].
      destruct (hasPaginationTokenFieldRecursive_found _ _ _ _ _ _ _ Hrun Hr)
        as [Hpres Hcand].
      destruct (Htoken r Hcand). by apply Hpresent.
    + destruct (hasSpecificField_returns G fieldName fuel t seen Hfuel seen)
        as ([] & seen' & Hrun & _); [done| |by exists seen'].
      apply hasSpecificField_true in Hrun. destruct Hfield. by apply Hpresent.
    + destruct (isAWSSDKTypeRecursive_returns G fuel t seen Hfuel seen)
        as ([] & seen' & Hrun & _); [done| |by exists seen'].
      apply isAWSSDKTypeRecursive_true in Hrun. destruct Htrust.
      unfold trustedWithin in *. by rewrite <- Hderef.
Qed.

Lemma walks_terminate_witness :
  (∃ seen', hasPaginationTokenFieldRecursive (walkFuel Examples.selfEmbedding)
              Examples.noCustomFields Examples.selfEmbedding 1%nat ∅
              = Some ("", seen')) ∧
  (∃ seen', hasSpecificField (walkFuel Examples.selfEmbedding)
              Examples.selfEmbedding 1%nat "LastEvaluatedKey" ∅
              = Some (false, seen')) ∧
  (∃ seen', isAWSSDKTypeRecursive (walkFuel Examples.selfEmbedding)
              Examples.selfEmbedding 1%nat ∅ = Some (false, seen')).
Proof.
  apply (proj2 (proj2 (proj2 (proj2 walks_terminate))) Examples.noCustomFields
           Examples.selfEmbedding 2%nat 1%nat "Node" (Some "example.com/app")
           3%nat
           [ {| fName := "Node"; fType := 1%nat; fEmbedded := true |};
             {| fName := "Value"; fType := 4%nat; fEmbedded := false |} ]
           {| fName := "Node"; fType := 1%nat; fEmbedded := true |}
           "LastEvaluatedKey").
  - reflexivity.
  - reflexivity.
  - reflexivity.
  - left.
  - reflexivity.
  - reflexivity.
  - intros c Hc.
    rewrite <- (hasSpecificField_fresh Examples.selfEmbedding c 2%nat).
    cbn in Hc. set_unfold in Hc.
    destruct Hc as [->|[->|[->|[->|[->|[->|[->|[]]]]]]]]; vm_compute; congruence.
  - rewrite <- (hasSpecificField_fresh Examples.selfEmbedding _ 2%nat).
    vm_compute. congruence.
  - rewrite <- (isAWSSDKType_trustedWithin Examples.selfEmbedding 2%nat).
    vm_compute. congruence.
  - by right.
  - apply walkFuel_enough.
Defined.

(** ** The resolver's entry points *)

Lemma registered_fields (key : string) (registered : list string) :
  apiSpecificPaginationFields !! key = Some registered →
  key ≠ "" ∧ registered ≠ [] ∧
  Forall (λ field, field ∉ defaultPaginationTokenFields) registered.
Proof.
  unfold apiSpecificPaginationFields.
  rewrite !lookup_insert_Some, lookup_empty.
  intros [[<- <-]|[_ [[<- <-]|[_ [[<- <-]|[_ [=]]]]]]];
    (split_and!; [done..|]);
    apply (bool_decide_unpack _); by vm_compute.
Qed.

Lemma known_service_named (serviceName : string) (registered : list string) :
  apiSpecificPaginationFields !! strings.ToLower serviceName = Some registered →
  serviceName ≠ "".
Proof. intros Hkey ->. by apply registered_fields in Hkey as [? _]. Qed.

(** The entry point never runs into its recursion bound. *)
Lemma hasPaginationTokenField_returns (config : Config) (G : TypeGraph)
    (t : TypeId) (serviceName : string) :
  ∃ seen',
    (let* specific :=
       (if decide (serviceName ≠ "") then
          match apiSpecificPaginationFields !! strings.ToLower serviceName with
          | Some fields =>
              rangeLoop (λ field,
                let* b := hasSpecificField (walkFuel G) G t field in
                wret (if b : bool then Some field else None)) fields
          | None => wret None
          end
        else wret None) in
     match specific with
     | Some field => wret field
     | None => hasPaginationTokenFieldRecursive (walkFuel G) config G t
     end) ∅
    = Some (hasPaginationTokenField config G t serviceName, seen').
Proof.
  unfold hasPaginationTokenField.
  match goal with
  | |- ∃ _, ?m ∅ = _ =>
      assert (returnsFrom ∅ m) as Hreturns
  end.
  { apply returnsFrom_wbind.
    - case_decide; [|apply returnsFrom_wret].
      case_match; [|apply returnsFrom_wret].
      apply returnsFrom_rangeLoop. intros field _.
      apply returnsFrom_wbind; [|intros; apply returnsFrom_wret].
      apply hasSpecificField_returns, walkFuel_enough.
    - intros [field|]; [apply returnsFrom_wret|].
      apply hasPaginationTokenFieldRecursive_returns, walkFuel_enough. }
  destruct (Hreturns ∅) as (r & seen' & Hrun & _); [done|].
  rewrite Hrun. by exists seen'.
Qed.

(** Once the first registered field was looked for and not found, the map
    holds the type, and every later check on that map answers at once:
    [hasPaginationTokenField] returns the empty string, whatever generic
    field the type has. *)
Lemma hasPaginationTokenField_shared_seen (config : Config) (G : TypeGraph)
    (t : TypeId) (serviceName first : string) (others : list string) :
  apiSpecificPaginationFields !! strings.ToLower serviceName
    = Some (first :: others) →
  ¬ present G t first →
  hasPaginationTokenField config G t serviceName = "".
Proof.
  intros Hkey Habsent. unfold hasPaginationTokenField.
  rewrite decide_True by by eapply known_service_named.
  rewrite Hkey.
  destruct (hasSpecificField_returns G first (walkFuel G) t ∅
              (walkFuel_enough G ∅) ∅) as ([] & seen1 & Hrun & _); [done|..].
  { by apply hasSpecificField_true in Hrun. }
  pose proof (hasSpecificField_false _ _ _ _ _ _ Hrun) as [_ Hin].
  unfold wbind at 1. cbn [rangeLoop]. unfold wbind at 1. unfold wbind at 1.
  rewrite Hrun. unfold wret at 1.
  assert (rangeLoop (λ field,
            let* b := hasSpecificField (walkFuel G) G t field in
            wret (if b : bool then Some field else None)) others seen1
          = Some (None, seen1)) as ->.
  { clear Hkey. induction others as [|field others IH]; [done|].
    cbn [rangeLoop]. unfold wbind at 1. unfold wbind at 1.
    unfold walkFuel at 1. rewrite hasSpecificField_visited by done.
    unfold wret at 1. apply IH. }
  unfold walkFuel. by rewrite hasPaginationTokenFieldRecursive_visited.
Qed.

(** C1 (the code departs from the claim): [dynamodb] is a known service,
    its registered field [LastEvaluatedKey] is not structurally present in
    [*dynamodb.ListExportsOutput], and the traversal of the generic list
    with a map of its own returns [NextToken]; [hasPaginationTokenField]
    returns the empty string instead, because the check for
    [LastEvaluatedKey] left the type marked in the map it shares with the
    generic check.  [getAllPaginationTokenFields], which gives every check
    a map of its own, does report [NextToken]. *)
Theorem hasPaginationTokenField_misses_generic_field :
  apiSpecificPaginationFields !! strings.ToLower "dynamodb"
    = Some ["LastEvaluatedKey"] ∧
  ¬ present Examples.listExports 1%nat "LastEvaluatedKey" ∧
  hasPaginationTokenFieldRecursive (walkFuel Examples.listExports)
    Examples.noCustomFields Examples.listExports 1%nat ∅
    = Some ("NextToken", {[2%nat]}) ∧
  hasPaginationTokenField Examples.noCustomFields Examples.listExports
    1%nat "dynamodb" = "" ∧
  getAllPaginationTokenFields Examples.noCustomFields Examples.listExports
    1%nat "dynamodb" = ["NextToken"].
Proof.
  split_and!.
  - reflexivity.
  - rewrite <- hasSpecificField_fresh. vm_compute. congruence.
  - vm_compute. reflexivity.
  - vm_compute. reflexivity.
  - vm_compute. reflexivity.
Qed.

(** C2: for a known service, when at least one of its registered fields is
    structurally present in [t], [getAllPaginationTokenFields] returns
    the registered fields that are structurally present, in the registered
    order, and no field of the generic default list, whatever generic field
    [t] has besides. *)
Theorem getAllPaginationTokenFields_service_fields (config : Config)
    (G : TypeGraph) (t : TypeId) (serviceName : string)
    (registered : list string) :
  apiSpecificPaginationFields !! strings.ToLower serviceName = Some registered →
  (∃ field, field ∈ registered ∧ present G t field) →
  (∀ field, field ∈ getAllPaginationTokenFields config G t serviceName ↔
            field ∈ registered ∧ present G t field) ∧
  getAllPaginationTokenFields config G t serviceName `sublist_of` registered ∧
  (∀ field, field ∈ getAllPaginationTokenFields config G t serviceName →
            field ∉ defaultPaginationTokenFields).
Proof.
  intros Hkey (field0 & Hreg0 & Hpres0).
  unfold getAllPaginationTokenFields.
  rewrite (decide_True _ _ (known_service_named _ _ Hkey)), Hkey.
  set (fields := filter _ registered).
  assert (∀ field, field ∈ fields ↔ field ∈ registered ∧ present G t field)
    as Hfields.
  { intros field. unfold fields. rewrite list_elem_of_filter.
    rewrite hasSpecificField_fresh. tauto. }
  assert (fields `sublist_of` registered) as Hsub by apply sublist_filter.
  clearbody fields.
  assert (0 < length fields)%nat as Hlen.
  { pose proof (proj2 (Hfields field0) (conj Hreg0 Hpres0)) as Hin.
    destruct fields; [by apply elem_of_nil in Hin|cbn; lia]. }
  rewrite decide_True by done. split_and!.
  - done.
  - done.
  - intros field [Hreg _]%Hfields.
    apply registered_fields in Hkey as (_ & _ & Hnot).
    by apply (proj1 (Forall_forall _ _) Hnot).
Qed.

Lemma getAllPaginationTokenFields_service_fields_witness :
  (∀ field,
     field ∈ getAllPaginationTokenFields Examples.noCustomFields
               Examples.listRecordSets 1%nat "Route53" ↔
     field ∈ ["IsTruncated"; "NextRecordName"; "NextRecordType";
              "NextRecordIdentifier"] ∧
     present Examples.listRecordSets 1%nat field) ∧
  getAllPaginationTokenFields Examples.noCustomFields Examples.listRecordSets
    1%nat "Route53"
    `sublist_of` ["IsTruncated"; "NextRecordName"; "NextRecordType";
                  "NextRecordIdentifier"] ∧
  (∀ field,
     field ∈ getAllPaginationTokenFields Examples.noCustomFields
               Examples.listRecordSets 1%nat "Route53" →
     field ∉ defaultPaginationTokenFields).
Proof.
  apply (getAllPaginationTokenFields_service_fields Examples.noCustomFields
           Examples.listRecordSets 1%nat "Route53").
  - reflexivity.
  - exists "IsTruncated". split; [by left|].
    rewrite <- hasSpecificField_fresh. vm_compute. reflexivity.
Defined.

(** C3: when the struct of [t] declares a candidate token field itself,
    [hasPaginationTokenFieldRecursive] returns a field the struct declares
    itself, whatever its embedded members hold and wherever their
    candidates stand in the list: the returned field is the earliest
    candidate of the list that the struct declares.  The same field is
    returned for any other declaration order of the fields. *)
Theorem direct_field_outranks_embedded (config : Config) (G : TypeGraph)
    (t : TypeId) (seen : gset TypeId) (fields : list Field) (fuel : nat)
    (candidate : string) :
  deref G t ∉ seen →
  structOf G (deref G t) = Some fields →
  candidate ∈ getPaginationTokenFields config →
  candidate ∈ fName <$> fields →
  ∃ tokenField before after,
    hasPaginationTokenFieldRecursive (S fuel) config G t seen
      = Some (tokenField, {[deref G t]} ∪ seen) ∧
    tokenField ∈ fName <$> fields ∧
    getPaginationTokenFields config = before ++ tokenField :: after ∧
    (∀ c, c ∈ before → c ∉ fName <$> fields) ∧
    (∀ (G' : TypeGraph) t' (seen' : gset TypeId) fields' fuel',
       deref G' t' ∉ seen' →
       structOf G' (deref G' t') = Some fields' →
       fields' ≡ₚ fields →
       hasPaginationTokenFieldRecursive (S fuel') config G' t' seen'
         = Some (tokenField, {[deref G' t']} ∪ seen')).
Proof.
  intros Hnew Hst Hcand Hdirect.
  destruct (find_is_Some (hasFieldNamed fields) _ _ Hcand
              (proj2 (hasFieldNamed_elem _ _) Hdirect)) as [tokenField Hfind].
  destruct (find_first _ _ _ Hfind) as (before & after & Hsplit & Hx & Hbefore).
  exists tokenField, before, after. split_and!.
  - by apply (hasPaginationTokenFieldRecursive_direct _ _ _ _ _ fields).
  - by apply hasFieldNamed_elem.
  - done.
  - intros c Hc Hin. apply hasFieldNamed_elem in Hin.
    rewrite (Hbefore c Hc) in Hin. done.
  - intros G' t' seen' fields' fuel' Hnew' Hst' Hperm.
    apply (hasPaginationTokenFieldRecursive_direct _ _ _ _ _ fields');
      [done..|].
    apply (find_first_unique _ _ before after); [done|..].
    + by rewrite (hasFieldNamed_Permutation _ _ _ Hperm).
    + intros c Hc. rewrite (hasFieldNamed_Permutation _ _ _ Hperm).
      by apply Hbefore.
Qed.

Lemma direct_field_outranks_embedded_witness :
  ∃ tokenField before after,
    hasPaginationTokenFieldRecursive 1 Examples.noCustomFields
      Examples.wrappedPage 1%nat ∅
      = Some (tokenField, {[deref Examples.wrappedPage 1%nat]} ∪ ∅) ∧
    tokenField ∈ ["Inner"; "Marker"] ∧
    getPaginationTokenFields Examples.noCustomFields
      = before ++ tokenField :: after ∧
    (∀ c, c ∈ before → c ∉ ["Inner"; "Marker"]) ∧
    (∀ (G' : TypeGraph) t' (seen' : gset TypeId) fields' fuel',
       deref G' t' ∉ seen' →
       structOf G' (deref G' t') = Some fields' →
       fields' ≡ₚ [ {| fName := "Inner"; fType := 3%nat; fEmbedded := true |};
                    {| fName := "Marker"; fType := 5%nat; fEmbedded := false |} ] →
       hasPaginationTokenFieldRecursive (S fuel') Examples.noCustomFields
         G' t' seen' = Some (tokenField, {[deref G' t']} ∪ seen')).
Proof.
  apply (direct_field_outranks_embedded Examples.noCustomFields
           Examples.wrappedPage 1%nat ∅
           [ {| fName := "Inner"; fType := 3%nat; fEmbedded := true |};
             {| fName := "Marker"; fType := 5%nat; fEmbedded := false |} ]
           0 "Marker").
  - vm_compute. set_solver.
  - reflexivity.
  - vm_compute. set_solver.
  - vm_compute. set_solver.
Defined.

(** ** Provenance *)

(** C6, as the code has it: [isAWSSDKType t] is true exactly when a named
    type declared in a package whose path contains the marker is reached
    from [t] by steps of [holds], each of which unwraps at most one pointer
    level, takes the underlying type of a named type and, when that is a
    struct, moves to the type of one of its fields, embedded or not, less
    one pointer level; a second pointer level, or a named type whose
    underlying type is not a struct, is not looked through.  In particular
    a struct with a field, embedded or not, of a trusted named type is
    trusted, and a path with the marker anywhere in it is a trusted
    package path. *)
Theorem isAWSSDKType_reaches_trusted :
  (∀ (G : TypeGraph) t,
     isAWSSDKType G t = true ↔
     ∃ v, rtc (holds G) (deref G t) v ∧ trustedNamed G v) ∧
  (∀ (G : TypeGraph) t fields field,
     structOf G (deref G t) = Some fields → field ∈ fields →
     trustedNamed G (deref G (fType field)) →
     isAWSSDKType G t = true) ∧
  (∀ pre post,
     isAWSSDKPackage (pre +:+ "aws-sdk-go-v2/service/" +:+ post) = true).
Proof.
  split_and!.
  - intros G t. apply isAWSSDKType_trustedWithin.
  - intros G t fields field Hst Hin Htrusted.
    apply isAWSSDKType_trustedWithin.
    exists (deref G (fType field)). split; [|done].
    apply rtc_once. by exists fields, field.
  - intros pre post. apply isAWSSDKPackage_spec. by exists pre, post.
Qed.

Lemma isAWSSDKType_reaches_trusted_witness :
  isAWSSDKType Examples.wrapper 1%nat = true.
Proof.
  apply (proj1 (proj2 isAWSSDKType_reaches_trusted) Examples.wrapper 1%nat
           [ {| fName := "Out"; fType := 3%nat; fEmbedded := false |} ]
           {| fName := "Out"; fType := 3%nat; fEmbedded := false |}).
  - reflexivity.
  - by left.
  - exists "ListBucketsOutput",
      "example.com/app/vendor/github.com/aws/aws-sdk-go-v2/service/s3",
      5%nat, "example.com/app/vendor/github.com/aws/", "s3".
    split; reflexivity.
Defined.

(** C6 as stated fails: the trusted [s3.ListBucketsOutput] is reached from
    [**s3.ListBucketsOutput] by unwrapping pointers, and [isAWSSDKType]
    returns false, for it unwraps one pointer level only. *)
Lemma isAWSSDKType_double_pointer :
  ¬ (isAWSSDKType Examples.doublePointer 1%nat = true ↔
     ∃ v, rtc (reachStep Examples.doublePointer) 1%nat v ∧
          trustedNamed Examples.doublePointer v).
Proof.
  intros [_ Hclaim].
  assert (isAWSSDKType Examples.doublePointer 1%nat = true) as Hrun; [|done].
  apply Hclaim. exists 3%nat. split.
  - apply (rtc_l _ _ 2%nat); [by apply reach_elem|].
    apply rtc_once. by apply reach_elem.
  - exists "ListBucketsOutput", "github.com/aws/aws-sdk-go-v2/service/s3",
      4%nat, "github.com/aws/", "s3".
    split; reflexivity.
Qed.

(** ** Consumption scanner *)

Lemma inspect_children {S : Type} (f : Node → S → S) (n : Node) (s : S) :
  inspect f n s = fold_left (λ s a, inspect f a s) (children n) (f n s).
Proof. destruct n; cbn [inspect children fold_left]; [done..| |done].
  by rewrite fold_left_app. Qed.

Section Scanner.
Context (varName : string) (tokenFields : list string).

Lemma scanNode_keeps (n : Node) (h : Handling) :
  hasPaginatorUsage h = true →
  hasPaginatorUsage (scanNode varName tokenFields n h) = true.
Proof.
  intros Hh. unfold scanNode.
  repeat (case_match; cbn [hasPaginatorUsage]); done.
Qed.

Lemma fold_inspect_keeps (l : list Node) (h : Handling) :
  Forall (λ n, ∀ h, hasPaginatorUsage h = true →
                    hasPaginatorUsage
                      (inspect (scanNode varName tokenFields) n h) = true) l →
  hasPaginatorUsage h = true →
  hasPaginatorUsage
    (fold_left (λ s a, inspect (scanNode varName tokenFields) a s) l h) = true.
Proof.
  intros Hl. revert h. induction Hl as [|n l Hn _ IH]; intros h Hh; [done|].
  cbn [fold_left]. by apply IH, Hn.
Qed.

Lemma inspect_keeps (n : Node) (h : Handling) :
  hasPaginatorUsage h = true →
  hasPaginatorUsage (inspect (scanNode varName tokenFields) n h) = true.
Proof.
  revert h. induction n as [n IH] using Node_children_ind. intros h Hh.
  rewrite inspect_children. apply fold_inspect_keeps; [done|].
  by apply scanNode_keeps.
Qed.

Lemma fold_inspect_hits (l : list Node) (child : Node) (h : Handling) :
  child ∈ l →
  (∀ h, hasPaginatorUsage
          (inspect (scanNode varName tokenFields) child h) = true) →
  hasPaginatorUsage
    (fold_left (λ s a, inspect (scanNode varName tokenFields) a s) l h) = true.
Proof.
  intros Hin Hchild. revert h.
  induction l as [|n l IH]; intros h; [by apply elem_of_nil in Hin|].
  cbn [fold_left]. apply elem_of_cons in Hin as [<-|Hin]; [|by apply IH].
  apply fold_inspect_keeps; [|done].
  apply Forall_forall. intros ? _ ?. apply inspect_keeps.
Qed.

Lemma sliceFrom_append (pre s : string) :
  sliceFrom (String.length pre) (pre +:+ s) = s.
Proof. induction pre as [|c pre IH]; [by destruct s|done]. Qed.

Lemma length_append (a b : string) :
  String.length (a +:+ b) = (String.length a + String.length b)%nat.
Proof.
  induction a as [|c a IH]; [done|].
  rewrite append_cons. cbn [String.length]. by rewrite IH.
Qed.

(** The member names the scanner takes for the use of a paginator. *)
Lemma scanNode_paginator (pos : Pos) (X : Node) (member : string)
    (args : list Node) (h : Handling) :
  (∃ pre, pre ≠ "" ∧ member = pre +:+ "Paginator") ∨
    member = "HasMorePages" ∨ member = "NextPage" →
  hasPaginatorUsage
    (scanNode varName tokenFields (CallExpr pos (SelectorExpr X member) args) h)
    = true.
Proof.
  intros Hmember. unfold scanNode.
  destruct Hmember as [(pre & Hpre & ->)|[-> | ->]]; [|done..].
  assert (9 < len (pre +:+ "Paginator")) as Hlen.
  { unfold len. rewrite length_append. destruct pre; [done|]. cbn. lia. }
  assert (Z.to_nat (len (pre +:+ "Paginator") - 9) = String.length pre) as ->.
  { unfold len. rewrite length_append. cbn. lia. }
  rewrite sliceFrom_append.
  rewrite (bool_decide_eq_true_2 _ Hlen).
  rewrite (bool_decide_eq_true_2 ("Paginator" = "Paginator")) by done.
  cbn [andb]. by case_match.
Qed.
End Scanner.

(** C5, as the code has it: [hasPaginationHandling] is true whenever the
    body contains an invocation whose target member name is [HasMorePages]
    or [NextPage], or ends with [Paginator] and is longer than that suffix,
    whatever the bound variable and the token fields are.  (The code asks
    for [len(name) > 9]: the bare name [Paginator] is not taken for a
    paginator constructor.) *)
Theorem hasPaginationHandling_paginator (body : Node) (varName : string)
    (tokenFields : list string) (member : string) :
  invokes body member →
  (∃ pre, pre ≠ "" ∧ member = pre +:+ "Paginator") ∨
    member = "HasMorePages" ∨ member = "NextPage" →
  hasPaginationHandling body varName tokenFields = true.
Proof.
  intros (pos & X & args & Hwithin) Hmember.
  unfold hasPaginationHandling. apply orb_true_intro. right.
  generalize {| hasTokenAccess := false; hasPaginatorUsage := false |}.
  remember (CallExpr pos (SelectorExpr X member) args) as call eqn:Hcall.
  induction Hwithin as [call|parent child call Hchild _ IH]; intros h;
    subst call.
  - rewrite inspect_children. apply fold_inspect_keeps.
    + apply Forall_forall. intros ? _ ?. apply inspect_keeps.
    + by apply scanNode_paginator.
  - rewrite inspect_children. eapply fold_inspect_hits; [done|]. by apply IH.
Qed.

Lemma hasPaginationHandling_paginator_witness :
  hasPaginationHandling Examples.paginatorBody "result" ["NextToken"] = true.
Proof.
  apply (hasPaginationHandling_paginator Examples.paginatorBody "result"
           ["NextToken"] "NewListObjectsV2Paginator").
  - exists 10, (Ident "s3"), [Ident "client"; Ident "input"].
    eapply rtc_l; [by left|]. cbn. apply rtc_once. cbn. set_solver.
  - left. exists "NewListObjectsV2". split; [done|reflexivity].
Defined.

(** C5 as stated fails: a call of a method named just [Paginator] ends
    with the suffix, and the scanner does not count it. *)
Lemma hasPaginationHandling_bare_Paginator :
  ¬ (∀ body varName tokenFields member,
       invokes body member →
       (∃ pre, member = pre +:+ "Paginator") ∨
         member = "HasMorePages" ∨ member = "NextPage" →
       hasPaginationHandling body varName tokenFields = true).
Proof.
  intros Hclaim.
  assert (hasPaginationHandling Examples.barePaginatorCall "result"
            ["NextToken"] = true) as Hrun; [|done].
  apply (Hclaim _ _ _ "Paginator").
  - exists 10, (Ident "client"), []. apply rtc_once. by left.
  - left. by exists "".
Qed.

(** ** Diagnostic builder *)

Lemma writeFields_appends (tokenFields fields : list string) (i : nat)
    (msg : string) :
  ∃ listed,
    writeFields tokenFields i fields msg = msg +:+ listed ∧
    (Forall (λ s, countByte "010" s = 0%nat) fields →
     countByte "010" listed = 0%nat).
Proof.
  revert i msg. induction fields as [|field fields IH]; intros i msg;
    cbn [writeFields].
  - exists "". by rewrite append_nil_r.
  - unfold WriteString.
    repeat case_decide;
      match goal with
      | |- ∃ _, writeFields _ _ _ ?m = _ ∧ _ =>
          destruct (IH (S i) m) as (listed & -> & Hcount)
      end.
    + exists (", and " +:+ field +:+ listed). rewrite !append_assoc.
      split; [done|]. intros [Hf Hl]%Forall_cons.
      rewrite !countByte_append, Hf, Hcount; done.
    + exists (", " +:+ field +:+ listed). rewrite !append_assoc.
      split; [done|]. intros [Hf Hl]%Forall_cons.
      rewrite !countByte_append, Hf, Hcount; done.
    + exists (field +:+ listed). rewrite !append_assoc.
      split; [done|]. intros [Hf Hl]%Forall_cons.
      rewrite !countByte_append, Hf, Hcount; done.
Qed.

Lemma buildErrorMessage_shape (tokenFields : list string) (varName : string)
    (info : apiCallInfo) :
  tokenFields ≠ [] →
  ∃ detected fieldAccess,
    buildErrorMessage tokenFields varName info
      = ("missing pagination handling for AWS SDK List API call" +:+ detected)
        +:+ String "010" "" +:+
        "When there are many results, only the first page is returned. Use "
        +:+ (if decide (serviceName info ≠ "" ∧ methodName info ≠ "")
             then "New" +:+ methodName info +:+ "Paginator"
             else "a paginator")
        +:+ " or loop with "
        +:+ (if decide (varName ≠ "") then varName +:+ "." else "")
        +:+ fieldAccess ∧
    (Forall (λ s, countByte "010" s = 0%nat) tokenFields →
     countByte "010" detected = 0%nat ∧ countByte "010" fieldAccess = 0%nat).
Proof.
  intros Hne. unfold buildErrorMessage.
  destruct tokenFields as [|field0 [|field1 rest]]; [done|..].
  - exists (" (result has " +:+ field0 +:+ " field)"), (field0 +:+ ".").
    split.
    + unfold WriteString. repeat case_decide; by rewrite !append_assoc.
    + intros [Hf _]%Forall_cons. by rewrite !countByte_append, Hf.
  - destruct (writeFields_appends (field0 :: field1 :: rest)
                (field0 :: field1 :: rest) 0
                (WriteString
                   (WriteString ""
                      "missing pagination handling for AWS SDK List API call")
                   " (result has ")) as (listed & -> & Hlisted).
    exists (" (result has " +:+ listed +:+ " fields)"),
           (field0 +:+ " (or other pagination fields).").
    split.
    + unfold WriteString. repeat case_decide; by rewrite !append_assoc.
    + intros Hall. pose proof (Hlisted Hall) as Hl.
      apply Forall_cons in Hall as [Hf _].
      by rewrite !countByte_append, Hf, Hl.
Qed.

(** C7, as the code has it: for a non-empty token-field list, when the
    field names, the variable name and the method name hold no line break,
    the message holds exactly one; before it stands the problem with the
    detected fields, after it the impact sentence followed by the remedy.
    The remedy names the paginator [New] + method name + [Paginator] when
    both the method name and the service name are non-empty, and is the
    phrase [a paginator] otherwise. *)
Theorem buildErrorMessage_two_segments (tokenFields : list string)
    (varName : string) (info : apiCallInfo) :
  tokenFields ≠ [] →
  Forall (λ s, countByte "010" s = 0%nat)
         (varName :: methodName info :: tokenFields) →
  ∃ problem remedy loopWith,
    buildErrorMessage tokenFields varName info
      = problem +:+ String "010" "" +:+
        "When there are many results, only the first page is returned. Use "
        +:+ remedy +:+ " or loop with " +:+ loopWith ∧
    countByte "010" problem = 0%nat ∧
    countByte "010" remedy = 0%nat ∧
    countByte "010" loopWith = 0%nat ∧
    countByte "010" (buildErrorMessage tokenFields varName info) = 1%nat ∧
    (serviceName info ≠ "" ∧ methodName info ≠ "" →
     remedy = "New" +:+ methodName info +:+ "Paginator") ∧
    (serviceName info = "" ∨ methodName info = "" → remedy = "a paginator").
Proof.
  intros Hne [Hvar [Hmethod Hfields]%Forall_cons]%Forall_cons.
  destruct (buildErrorMessage_shape tokenFields varName info Hne)
    as (detected & fieldAccess & Hshape & Hcount).
  destruct (Hcount Hfields) as [Hdetected HfieldAccess].
  exists ("missing pagination handling for AWS SDK List API call" +:+ detected),
         (if decide (serviceName info ≠ "" ∧ methodName info ≠ "")
          then "New" +:+ methodName info +:+ "Paginator"
          else "a paginator"),
         ((if decide (varName ≠ "") then varName +:+ "." else "")
          +:+ fieldAccess).
  assert (countByte "010"
            (if decide (serviceName info ≠ "" ∧ methodName info ≠ "")
             then "New" +:+ methodName info +:+ "Paginator"
             else "a paginator") = 0%nat) as Hremedy.
  { destruct (decide (serviceName info ≠ "" ∧ methodName info ≠ ""));
      [|done].
    by rewrite !countByte_append, Hmethod. }
  assert (countByte "010"
            ((if decide (varName ≠ "") then varName +:+ "." else "")
             +:+ fieldAccess) = 0%nat) as Hloop.
  { rewrite countByte_append, HfieldAccess.
    destruct (decide (varName ≠ "")); [|done].
    by rewrite countByte_append, Hvar. }
  split_and!.
  - by rewrite Hshape, !append_assoc.
  - rewrite countByte_append, Hdetected. reflexivity.
  - done.
  - done.
  - rewrite Hshape, !countByte_append, Hdetected, Hremedy.
    rewrite countByte_append in Hloop. rewrite Hloop. reflexivity.
  - intros Hboth. by rewrite decide_True.
  - intros Hone. rewrite decide_False; [done|]. tauto.
Qed.

Lemma buildErrorMessage_two_segments_witness :
  ∃ problem remedy loopWith,
    buildErrorMessage ["NextToken"] "result"
      {| methodName := "ListTasks"; serviceName := "ecs";
         typeName := "ListTasksOutput" |}
      = problem +:+ String "010" "" +:+
        "When there are many results, only the first page is returned. Use "
        +:+ remedy +:+ " or loop with " +:+ loopWith ∧
    countByte "010" problem = 0%nat ∧
    countByte "010" remedy = 0%nat ∧
    countByte "010" loopWith = 0%nat ∧
    countByte "010"
      (buildErrorMessage ["NextToken"] "result"
         {| methodName := "ListTasks"; serviceName := "ecs";
            typeName := "ListTasksOutput" |}) = 1%nat ∧
    ("ecs" ≠ "" ∧ "ListTasks" ≠ "" →
     remedy = "New" +:+ "ListTasks" +:+ "Paginator") ∧
    ("ecs" = "" ∨ "ListTasks" = "" → remedy = "a paginator").
Proof.
  apply (buildErrorMessage_two_segments ["NextToken"] "result"
           {| methodName := "ListTasks"; serviceName := "ecs";
              typeName := "ListTasksOutput" |}).
  - done.
  - repeat constructor.
Defined.

(** C7 as stated fails twice.  A field name with a line break in it brings
    two more line breaks into the message; and the line break of every message
    stands before the impact sentence, not after it: the first line is the
    problem alone. *)
Lemma buildErrorMessage_line_breaks :
  countByte "010"
    (buildErrorMessage [String "N" (String "010" "T")] "result"
       {| methodName := "ListTasks"; serviceName := "ecs";
          typeName := "ListTasksOutput" |}) = 3%nat ∧
  buildErrorMessage ["NextToken"] "result"
    {| methodName := "ListTasks"; serviceName := "ecs";
       typeName := "ListTasksOutput" |}
  = "missing pagination handling for AWS SDK List API call (result has NextToken field)"
    +:+ String "010" ""
    +:+ "When there are many results, only the first page is returned. Use NewListTasksPaginator or loop with result.NextToken.".
Proof. split; reflexivity. Qed.

(** ** Orchestrator *)

Lemma checkAssignment_reports (config : Config) (pass : Pass)
    (Lhs Rhs : list Node) (funcDecl : FuncDecl) (d : Diagnostic) :
  d ∈ checkAssignment config pass (AssignStmt Lhs Rhs) funcDecl ↔
  ∃ j rightHandSide,
    Rhs !! j = Some rightHandSide ∧
    checkRightHandSide config pass Lhs funcDecl j rightHandSide = Some d.
Proof.
  cbn [checkAssignment]. rewrite list_elem_of_omap. split.
  - intros (r & (j & Hj)%list_elem_of_lookup & Hr).
    rewrite list_lookup_imap in Hj.
    destruct (Rhs !! j) as [rightHandSide|] eqn:Hrhs; [|done].
    exists j, rightHandSide. cbn in Hj. by simplify_eq.
  - intros (j & rightHandSide & Hrhs & Hcheck).
    exists (Some d). split; [|done].
    apply list_elem_of_lookup. exists j.
    by rewrite list_lookup_imap, Hrhs, <- Hcheck.
Qed.

Lemma checkRightHandSide_unnamed (config : Config) (pass : Pass)
    (Lhs : list Node) (funcDecl : FuncDecl) (i : nat) (lhs rightHandSide : Node) :
  Lhs !! i = Some lhs → extractVariableName lhs = "" →
  checkRightHandSide config pass Lhs funcDecl i rightHandSide = None.
Proof.
  intros Hlhs Hname. unfold checkRightHandSide.
  destruct rightHandSide; try done. rewrite Hlhs.
  destruct (extractResultType pass _); [|done].
  rewrite Hname. by repeat case_match.
Qed.

(** C8: when the left-hand side at the position of a call expression is
    the blank identifier, the iteration of [checkAssignment] for that call
    reports nothing, whatever the result type, its provenance and the
    function body are; every diagnostic of the statement comes from
    another position. *)
Theorem blank_target_no_diagnostic (config : Config) (pass : Pass)
    (Lhs Rhs : list Node) (funcDecl : FuncDecl) (i : nat)
    (rightHandSide : Node) :
  Lhs !! i = Some (Ident "_") →
  Rhs !! i = Some rightHandSide →
  checkRightHandSide config pass Lhs funcDecl i rightHandSide = None ∧
  ∀ d, d ∈ checkAssignment config pass (AssignStmt Lhs Rhs) funcDecl →
       ∃ j other, j ≠ i ∧ Rhs !! j = Some other ∧
                  checkRightHandSide config pass Lhs funcDecl j other = Some d.
Proof.
  intros Hlhs Hrhs.
  assert (checkRightHandSide config pass Lhs funcDecl i rightHandSide = None)
    as Hnone by by eapply checkRightHandSide_unnamed.
  split; [done|].
  intros d (j & other & Hj & Hcheck)%checkAssignment_reports.
  exists j, other. split_and!; [|done..].
  intros ->. congruence.
Qed.

Lemma blank_target_no_diagnostic_witness :
  checkRightHandSide Examples.noCustomFields Examples.listBucketsPass
    [Ident "_"; Ident "err"] Examples.noHandling 0 Examples.listBucketsCall
    = None ∧
  ∀ d, d ∈ checkAssignment Examples.noCustomFields Examples.listBucketsPass
             (AssignStmt [Ident "_"; Ident "err"] [Examples.listBucketsCall])
             Examples.noHandling →
       ∃ j other, j ≠ 0%nat ∧
                  [Examples.listBucketsCall] !! j = Some other ∧
                  checkRightHandSide Examples.noCustomFields
                    Examples.listBucketsPass [Ident "_"; Ident "err"]
                    Examples.noHandling j other = Some d.
Proof.
  apply (blank_target_no_diagnostic Examples.noCustomFields
           Examples.listBucketsPass [Ident "_"; Ident "err"]
           [Examples.listBucketsCall] Examples.noHandling 0
           Examples.listBucketsCall); reflexivity.
Defined.

(** The same call bound to a variable is reported: the type has a token
    field and trusted provenance, and the body handles nothing. *)
Example named_target_reported :
  checkAssignment Examples.noCustomFields Examples.listBucketsPass
    (AssignStmt [Ident "result"; Ident "err"] [Examples.listBucketsCall])
    Examples.noHandling
  = [ {| diagPos := 42;
         Message := buildErrorMessage ["NextToken"] "result"
                      {| methodName := "ListBuckets"; serviceName := "s3";
                         typeName := "ListBucketsOutput" |} |} ].
Proof. vm_compute. reflexivity. Qed.

(** C9: [extractVariableName] returns the empty string for every
    expression that is not an identifier, and when the left-hand side at
    the position of a call expression is such an expression, the iteration
    of [checkAssignment] for that call reports nothing, as for the blank
    identifier; every diagnostic of the statement comes from another
    position. *)
Theorem unnamed_target_no_diagnostic (config : Config) (pass : Pass)
    (Lhs Rhs : list Node) (funcDecl : FuncDecl) (i : nat)
    (lhs rightHandSide : Node) :
  (∀ name, lhs ≠ Ident name) →
  Lhs !! i = Some lhs →
  Rhs !! i = Some rightHandSide →
  extractVariableName lhs = "" ∧
  extractVariableName lhs = extractVariableName (Ident "_") ∧
  checkRightHandSide config pass Lhs funcDecl i rightHandSide = None ∧
  ∀ d, d ∈ checkAssignment config pass (AssignStmt Lhs Rhs) funcDecl →
       ∃ j other, j ≠ i ∧ Rhs !! j = Some other ∧
                  checkRightHandSide config pass Lhs funcDecl j other = Some d.
Proof.
  intros Hnot Hlhs Hrhs.
  assert (extractVariableName lhs = "") as Hname.
  { destruct lhs; try done. by destruct (Hnot Name). }
  assert (checkRightHandSide config pass Lhs funcDecl i rightHandSide = None)
    as Hnone by by eapply checkRightHandSide_unnamed.
  split_and!; [done..|].
  intros d (j & other & Hj & Hcheck)%checkAssignment_reports.
  exists j, other. split_and!; [|done..].
  intros ->. congruence.
Qed.

Lemma unnamed_target_no_diagnostic_witness :
  extractVariableName (SelectorExpr (Ident "s") "out") = "" ∧
  extractVariableName (SelectorExpr (Ident "s") "out")
    = extractVariableName (Ident "_") ∧
  checkRightHandSide Examples.noCustomFields Examples.listBucketsPass
    [SelectorExpr (Ident "s") "out"; Ident "err"] Examples.noHandling 0
    Examples.listBucketsCall = None ∧
  ∀ d, d ∈ checkAssignment Examples.noCustomFields Examples.listBucketsPass
             (AssignStmt [SelectorExpr (Ident "s") "out"; Ident "err"]
                [Examples.listBucketsCall])
             Examples.noHandling →
       ∃ j other, j ≠ 0%nat ∧
                  [Examples.listBucketsCall] !! j = Some other ∧
                  checkRightHandSide Examples.noCustomFields
                    Examples.listBucketsPass
                    [SelectorExpr (Ident "s") "out"; Ident "err"]
                    Examples.noHandling j other = Some d.
Proof.
  apply (unnamed_target_no_diagnostic Examples.noCustomFields
           Examples.listBucketsPass
           [SelectorExpr (Ident "s") "out"; Ident "err"]
           [Examples.listBucketsCall] Examples.noHandling 0
           (SelectorExpr (Ident "s") "out") Examples.listBucketsCall);
    done.
Defined.

(** * Further properties *)

(** ** The flag value, both ways *)

Lemma Join_app (a b : list string) (sep : string) :
  a ≠ [] → b ≠ [] →
  strings.Join (a ++ b) sep = strings.Join a sep +:+ sep +:+ strings.Join b sep.
Proof.
  intros Ha Hb. induction a as [|e a IH]; [done|].
  destruct a as [|e' a].
  - cbn [app]. by rewrite Join_cons.
  - change ((e :: e' :: a) ++ b) with (e :: (e' :: a) ++ b).
    rewrite !Join_cons by done. rewrite IH by done.
    by rewrite !append_assoc.
Qed.

Lemma Split_no_sep (s : string) (sep : ascii) :
  countByte sep s = 0%nat → strings.Split s sep = [s].
Proof.
  induction s as [|c s IH]; [done|]. cbn [countByte strings.Split].
  case_decide; [done|]. intros Hs. by rewrite IH.
Qed.

Lemma Split_piece_sep (piece rest : string) (sep : ascii) :
  countByte sep piece = 0%nat →
  strings.Split (piece +:+ String sep rest) sep = piece :: strings.Split rest sep.
Proof.
  induction piece as [|c piece IH]; cbn [countByte].
  - intros _. rewrite append_nil_l. cbn [strings.Split]. by rewrite decide_True.
  - case_decide; [done|]. intros Hs. rewrite append_cons.
    cbn [strings.Split]. rewrite decide_False by done. by rewrite IH.
Qed.

Lemma Split_Join (pieces : list string) (sep : ascii) :
  pieces ≠ [] → Forall (λ piece, countByte sep piece = 0%nat) pieces →
  strings.Split (strings.Join pieces (String sep "")) sep = pieces.
Proof.
  intros Hne Hall. induction Hall as [|piece pieces Hpiece Hall IH]; [done|].
  destruct pieces as [|piece' pieces].
  - by apply Split_no_sep.
  - rewrite Join_cons by done. rewrite append_cons, append_nil_l.
    rewrite Split_piece_sep by done. by rewrite IH.
Qed.

(** X1: a non-empty value set on an empty flag is printed back as it was
    given; set on a flag that holds values already, it is printed after
    them, behind a comma. *)
Theorem String_after_Set (s : stringSliceFlag) (value : string) :
  value ≠ "" →
  stringSliceFlag_String (stringSliceFlag_Set s value).1
    = match s with
      | [] => value
      | _ => stringSliceFlag_String s +:+ "," +:+ value
      end.
Proof.
  intros Hne. unfold stringSliceFlag_String, stringSliceFlag_Set.
  rewrite decide_False by done. cbn [fst].
  destruct s as [|e s]; [apply Join_Split|].
  rewrite Join_app; [|done|apply Split_nonempty]. by rewrite Join_Split.
Qed.

Lemma String_after_Set_witness :
  "dynamodb,ecs" ≠ "" ∧
  stringSliceFlag_String (stringSliceFlag_Set ["s3"] "dynamodb,ecs").1
    = "s3" +:+ "," +:+ "dynamodb,ecs".
Proof.
  split; [done|]. apply (String_after_Set ["s3"] "dynamodb,ecs"). done.
Defined.

(** X2: a flag whose values hold no comma, printed and set again on an
    empty flag, gives the same values back; the one list this fails for is
    the list of a single empty string, which prints as the empty string. *)
Theorem Set_after_String (s : stringSliceFlag) :
  s ≠ [] → s ≠ [""] →
  Forall (λ piece, countByte "," piece = 0%nat) s →
  stringSliceFlag_Set [] (stringSliceFlag_String s) = (s, None).
Proof.
  intros Hne Hne' Hall. unfold stringSliceFlag_Set, stringSliceFlag_String.
  rewrite decide_False.
  - by rewrite Split_Join.
  - intros Hempty. destruct s as [|e [|e' s]]; [done|cbn in Hempty; by subst|].
    rewrite Join_cons in Hempty by done.
    destruct e; [by rewrite append_nil_l in Hempty|done].
Qed.

Lemma Set_after_String_witness :
  stringSliceFlag_Set [] (stringSliceFlag_String ["MyToken"; "CustomNextToken"])
    = (["MyToken"; "CustomNextToken"], None).
Proof.
  apply (Set_after_String ["MyToken"; "CustomNextToken"]); [done..|].
  by repeat constructor.
Defined.

(** ** Service names *)

Lemma slice_split (n : nat) (s : string) : sliceTo n s +:+ sliceFrom n s = s.
Proof.
  revert s. induction n as [|n IH]; intros [|c s]; cbn [sliceTo sliceFrom];
    try done.
  by rewrite append_cons, IH.
Qed.

Lemma Index_lower (s substr : string) : -1 ≤ strings.Index s substr.
Proof.
  induction s as [|c s IH]; cbn [strings.Index]; repeat case_match; lia.
Qed.

(** Where [Index] finds [substr], it stands. *)
Lemma Index_split (s substr : string) :
  0 ≤ strings.Index s substr →
  s = sliceTo (Z.to_nat (strings.Index s substr)) s +:+ substr +:+
      sliceFrom (Z.to_nat (strings.Index s substr + len substr)) s.
Proof.
  unfold len. induction s as [|c s IH]; cbn [strings.Index].
  - destruct (strings.HasPrefix "" substr) eqn:Hp; [|done]. intros _.
    apply HasPrefix_spec in Hp as [rest Hrest].
    destruct substr; [done|]. by rewrite append_cons in Hrest.
  - destruct (strings.HasPrefix (String c s) substr) eqn:Hp.
    + intros _. apply HasPrefix_spec in Hp as [rest Hrest].
      rewrite Hrest at 1. cbn [Z.to_nat sliceTo]. rewrite append_nil_l.
      f_equal. rewrite Hrest. rewrite Z.add_0_l, Nat2Z.id.
      by rewrite sliceFrom_append.
    + case_decide as Hi; [done|]. intros _.
      pose proof (Index_lower s substr).
      replace (Z.to_nat (strings.Index s substr + 1))
        with (S (Z.to_nat (strings.Index s substr))) by lia.
      replace (Z.to_nat (strings.Index s substr + 1
                         + Z.of_nat (String.length substr)))
        with (S (Z.to_nat (strings.Index s substr
                           + Z.of_nat (String.length substr)))) by lia.
      cbn [sliceTo sliceFrom]. rewrite append_cons. f_equal.
      apply IH. lia.
Qed.

Lemma HasPrefix_byte (s : string) (c : ascii) :
  strings.HasPrefix s (String c "") = true → ∃ rest, s = String c rest.
Proof. intros [rest ->]%HasPrefix_spec. by exists rest. Qed.

(** [Index] finds the first occurrence of a byte. *)
Lemma Index_byte_first (s : string) (c : ascii) :
  countByte c (sliceTo (Z.to_nat (strings.Index s (String c ""))) s) = 0%nat.
Proof.
  induction s as [|d s IH]; [done|]. cbn [strings.Index].
  destruct (strings.HasPrefix (String d s) (String c "")) eqn:Hp; [done|].
  pose proof (Index_lower s (String c "")).
  case_decide as Hi; [done|].
  replace (Z.to_nat (strings.Index s (String c "") + 1))
    with (S (Z.to_nat (strings.Index s (String c "")))) by lia.
  cbn [sliceTo countByte]. rewrite IH.
  case_decide as Hd; [|done]. subst d.
  cbn in Hp. by rewrite decide_True in Hp.
Qed.

Lemma Index_byte_none (s : string) (c : ascii) :
  strings.Index s (String c "") < 0 → countByte c s = 0%nat.
Proof.
  induction s as [|d s IH]; [done|]. cbn [strings.Index].
  destruct (strings.HasPrefix (String d s) (String c "")) eqn:Hp; [done|].
  pose proof (Index_lower s (String c "")).
  case_decide as Hi; [|lia]. intros _. cbn [countByte]. rewrite IH by done.
  case_decide as Hd; [|done]. subst d.
  cbn in Hp. by rewrite decide_True in Hp.
Qed.

Lemma Index_byte_found (piece rest : string) (c : ascii) :
  countByte c piece = 0%nat →
  strings.Index (piece +:+ String c rest) (String c "") = len piece.
Proof.
  unfold len. induction piece as [|d piece IH]; cbn [countByte].
  - intros _. rewrite append_nil_l. cbn [strings.Index strings.HasPrefix].
    by rewrite decide_True.
  - case_decide as Hd; [done|]. intros Hpiece. rewrite append_cons.
    cbn [strings.Index strings.HasPrefix].
    rewrite decide_False by done. rewrite IH by done.
    rewrite decide_False by lia. cbn [String.length]. lia.
Qed.

Lemma Index_byte_absent (s : string) (c : ascii) :
  countByte c s = 0%nat → strings.Index s (String c "") = -1.
Proof.
  induction s as [|d s IH]; [done|]. cbn [countByte].
  case_decide as Hd; [done|]. intros Hs.
  cbn [strings.Index strings.HasPrefix].
  rewrite decide_False by done. rewrite IH by done. done.
Qed.

Lemma extractServiceNameFromPackage_known (pkgPath : string) :
  extractServiceNameFromPackage pkgPath ≠ "" → isAWSSDKPackage pkgPath = true.
Proof.
  unfold isAWSSDKPackage, strings.Contains, extractServiceNameFromPackage.
  intros Hname. apply bool_decide_eq_true. by case_decide; [|lia].
Qed.

(** X3: [extractServiceNameFromPackage] returns the empty string exactly
    on the paths [isAWSSDKPackage] rejects; on the others the path is some
    prefix, the marker, the returned name and a rest that is empty or
    begins with a slash.  The returned name never holds a slash. *)
Theorem extractServiceNameFromPackage_segment (pkgPath : string) :
  (isAWSSDKPackage pkgPath = false →
   extractServiceNameFromPackage pkgPath = "") ∧
  (isAWSSDKPackage pkgPath = true →
   ∃ pre rest,
     pkgPath = pre +:+ "aws-sdk-go-v2/service/" +:+
               extractServiceNameFromPackage pkgPath +:+ rest ∧
     (rest = "" ∨ ∃ sub, rest = "/" +:+ sub)) ∧
  countByte "/" (extractServiceNameFromPackage pkgPath) = 0%nat.
Proof.
  unfold isAWSSDKPackage, strings.Contains, extractServiceNameFromPackage.
  set (idx := strings.Index pkgPath "aws-sdk-go-v2/service/").
  set (servicePath :=
         sliceFrom (Z.to_nat (idx + len "aws-sdk-go-v2/service/")) pkgPath).
  split_and!.
  - intros Hidx%bool_decide_eq_false. by rewrite decide_True by lia.
  - intros Hidx%bool_decide_eq_true. rewrite decide_False by lia.
    exists (sliceTo (Z.to_nat idx) pkgPath).
    pose proof (Index_split pkgPath "aws-sdk-go-v2/service/" Hidx) as Hsplit.
    fold idx in Hsplit. fold servicePath in Hsplit.
    case_decide as Hslash.
    + pose proof (Index_split servicePath "/" Hslash) as Hsub.
      eexists. split; [|right; eexists; reflexivity].
      rewrite Hsplit at 1. do 2 f_equal. exact Hsub.
    + exists "". split; [|by left]. by rewrite append_nil_r.
  - case_decide; [done|]. case_decide as Hslash.
    + apply Index_byte_first.
    + apply Index_byte_none. lia.
Qed.

Lemma extractServiceNameFromPackage_segment_witness :
  ∃ pre rest,
    "proxy.example.com/aws-sdk-go-v2/service/ecs/types"
      = pre +:+ "aws-sdk-go-v2/service/" +:+
        extractServiceNameFromPackage
          "proxy.example.com/aws-sdk-go-v2/service/ecs/types" +:+ rest ∧
    (rest = "" ∨ ∃ sub, rest = "/" +:+ sub).
Proof.
  apply (proj1 (proj2 (extractServiceNameFromPackage_segment
                         "proxy.example.com/aws-sdk-go-v2/service/ecs/types"))).
  reflexivity.
Defined.

Lemma HasPrefix_append (a b substr : string) :
  (String.length substr ≤ String.length a)%nat →
  strings.HasPrefix (a +:+ b) substr = strings.HasPrefix a substr.
Proof.
  revert a. induction substr as [|p substr IH]; intros a Hlen; [done|].
  destruct a as [|c a]; [cbn in Hlen; lia|].
  rewrite append_cons. cbn [strings.HasPrefix].
  case_decide; [|done]. apply IH. cbn in Hlen. lia.
Qed.

Lemma Index_found_length (a substr : string) :
  0 ≤ strings.Index a substr → (String.length substr ≤ String.length a)%nat.
Proof.
  intros (pre & post & ->)%Index_found. rewrite !length_append. lia.
Qed.

(** What [Index] finds in a string it finds in every extension of it. *)
Lemma Index_append (a b substr : string) :
  0 ≤ strings.Index a substr →
  strings.Index (a +:+ b) substr = strings.Index a substr.
Proof.
  induction a as [|c a IH].
  - cbn [strings.Index]. destruct (strings.HasPrefix "" substr) eqn:Hp; [|done].
    intros _. apply HasPrefix_spec in Hp as [rest Hrest].
    destruct substr; [|by rewrite append_cons in Hrest].
    rewrite append_nil_l. by destruct b.
  - intros Hfound. pose proof (Index_found_length _ _ Hfound) as Hlen.
    rewrite append_cons. cbn [strings.Index] in Hfound |- *.
    rewrite <- append_cons, (HasPrefix_append _ _ _ Hlen).
    destruct (strings.HasPrefix (String c a) substr); [done|].
    case_decide as Hi; [done|]. rewrite IH by lia. by rewrite decide_False.
Qed.

Lemma sliceTo_append (pre s : string) :
  sliceTo (String.length pre) (pre +:+ s) = pre.
Proof.
  induction pre as [|c pre IH]; [by destruct s|].
  rewrite append_cons. cbn [String.length sliceTo]. by rewrite IH.
Qed.

(** X4: when the marker first occurs in [pre] + marker at the end of
    [pre], the service name written behind the marker is read back from
    the path, with or without a sub-package after it. *)
Theorem extractServiceNameFromPackage_reads_service
    (pre service rest : string) :
  strings.Index (pre +:+ "aws-sdk-go-v2/service/") "aws-sdk-go-v2/service/"
    = len pre →
  countByte "/" service = 0%nat →
  rest = "" ∨ (∃ sub, rest = "/" +:+ sub) →
  extractServiceNameFromPackage
    (pre +:+ "aws-sdk-go-v2/service/" +:+ service +:+ rest) = service.
Proof.
  intros Hidx Hservice Hrest. unfold extractServiceNameFromPackage.
  rewrite <- (append_assoc pre).
  rewrite Index_append by (rewrite Hidx; unfold len; lia).
  rewrite Hidx. rewrite decide_False by (unfold len; lia).
  replace (Z.to_nat (len pre + len "aws-sdk-go-v2/service/"))
    with (String.length (pre +:+ "aws-sdk-go-v2/service/"))
    by (unfold len; rewrite length_append; lia).
  rewrite sliceFrom_append.
  destruct Hrest as [->|[sub ->]].
  - rewrite append_nil_r, Index_byte_absent by done.
    by rewrite decide_False by lia.
  - rewrite append_cons, append_nil_l, Index_byte_found by done.
    rewrite decide_True by (unfold len; lia).
    unfold len. rewrite Nat2Z.id. apply sliceTo_append.
Qed.

Lemma extractServiceNameFromPackage_reads_service_witness :
  extractServiceNameFromPackage
    ("github.com/aws/" +:+ "aws-sdk-go-v2/service/" +:+ "s3" +:+ "/types")
    = "s3".
Proof.
  apply (extractServiceNameFromPackage_reads_service "github.com/aws/" "s3"
           "/types").
  - reflexivity.
  - reflexivity.
  - right. by exists "types".
Defined.

(** ** Call-site extraction *)


(** X5: a call site whose service name is known has a result type of
    trusted provenance: the type, less one pointer level, is a named type
    with the extracted type name, declared in a package that
    [isAWSSDKPackage] accepts and from whose path the service name was
    read. *)
Theorem extractAPICallInfo_known_service (G : TypeGraph) (callExpr : Node)
    (resultType : TypeId) :
  serviceName (extractAPICallInfo G callExpr resultType) ≠ "" →
  isAWSSDKType G resultType = true ∧
  ∃ path u,
    G !! deref G resultType
      = Some (Named (typeName (extractAPICallInfo G callExpr resultType))
                (Some path) u) ∧
    isAWSSDKPackage path = true ∧
    serviceName (extractAPICallInfo G callExpr resultType)
      = extractServiceNameFromPackage path.
Proof.
  unfold extractAPICallInfo.
  destruct (G !! deref G resultType) as [[|name [path|] u| | |]|] eqn:Hty;
    cbn [serviceName typeName]; try done.
  intros Hname%extractServiceNameFromPackage_known.
  split; [|by exists path, u].
  apply isAWSSDKType_trustedWithin. exists (deref G resultType).
  split; [done|]. apply fromAWSSDK_spec. unfold fromAWSSDK. by rewrite Hty.
Qed.

Lemma extractAPICallInfo_known_service_witness :
  isAWSSDKType Examples.listBuckets 1%nat = true ∧
  ∃ path u,
    Examples.listBuckets !! deref Examples.listBuckets 1%nat
      = Some (Named (typeName (extractAPICallInfo Examples.listBuckets
                                 Examples.listBucketsCall 1%nat))
                (Some path) u) ∧
    isAWSSDKPackage path = true ∧
    serviceName (extractAPICallInfo Examples.listBuckets
                   Examples.listBucketsCall 1%nat)
      = extractServiceNameFromPackage path.
Proof.
  apply (extractAPICallInfo_known_service Examples.listBuckets
           Examples.listBucketsCall 1%nat).
  vm_compute. congruence.
Defined.

(** ** The field resolver, with a map of its own *)

(** X6: whatever map it is given, a true answer of [hasSpecificField]
    means the field is structurally present; started on the empty map with
    a recursion bound above the number of types, it returns true exactly
    when the field is structurally present: declared by the struct of the
    type, less one pointer level, or by a struct reached through embedded
    members, each less one pointer level. *)
Theorem hasSpecificField_decides_presence (G : TypeGraph) (t : TypeId)
    (fieldName : string) (fuel : nat) :
  (∀ seen seen',
     hasSpecificField fuel G t fieldName seen = Some (true, seen') →
     present G t fieldName) ∧
  ((unseen G ∅ < fuel)%nat →
   ∃ b seen',
     hasSpecificField fuel G t fieldName ∅ = Some (b, seen') ∧
     (b = true ↔ present G t fieldName)).
Proof.
  split; [intros seen seen'; apply hasSpecificField_true|].
  intros Hfuel.
  destruct (hasSpecificField_returns G fieldName fuel t ∅ Hfuel ∅)
    as (b & seen' & Hrun & _); [done|].
  exists b, seen'. split; [done|]. destruct b.
  - split; [intros _|done]. by eapply hasSpecificField_true.
  - split; [done|]. intros (v & Hreach & Hdecl).
    apply hasSpecificField_false in Hrun as [Hexp Hin].
    by destruct (explored_closed _ _ _ _ _ Hexp Hin Hreach).
Qed.

Lemma hasSpecificField_decides_presence_witness :
  ∃ b seen',
    hasSpecificField 6 Examples.wrappedPage 1%nat "NextToken" ∅
      = Some (b, seen') ∧
    (b = true ↔ present Examples.wrappedPage 1%nat "NextToken").
Proof.
  apply (proj2 (hasSpecificField_decides_presence Examples.wrappedPage 1%nat
                  "NextToken" 6)).
  vm_compute. lia.
Defined.

Section TokenFieldComplete.
Context (config : Config) (G : TypeGraph).
Hypothesis custom_named : "" ∉ CustomTokenFields config.

Lemma candidates_named : "" ∉ getPaginationTokenFields config.
Proof.
  unfold getPaginationTokenFields. rewrite elem_of_app. intros [Hd|Hc]; [|done].
  revert Hd. by apply (bool_decide_unpack _).
Qed.

Lemma hasPaginationTokenFieldRecursive_empty (fuel : nat) (t : TypeId)
    seen seen' :
  hasPaginationTokenFieldRecursive fuel config G t seen = Some ("", seen') →
  explored (λ u, ∃ c, c ∈ getPaginationTokenFields config ∧ declares G u c)
           (embeds G) seen seen' ∧
  deref G t ∈ seen'.
Proof.
  revert t seen seen'. induction fuel as [|fuel IH]; intros t seen seen';
    [done|].
  cbn [hasPaginationTokenFieldRecursive].
  intros [(Hin & _ & ->)|[Hnew Hrest]]%marked_Some.
  { split; [apply explored_refl|done]. }
  fold (structOf G (deref G t)) in Hrest.
  destruct (structOf G (deref G t)) as [fields|] eqn:Hst.
  - destruct (find _ _) as [tokenField|] eqn:Hfind.
    { apply wret_Some in Hrest as [<- _].
      apply find_some in Hfind as [Hin%list_elem_of_In _].
      by destruct candidates_named. }
    apply wbind_Some in Hrest as (found & s1 & Hloop & Hret).
    apply wret_Some in Hret as [Hfound ->].
    destruct found as [r|].
    { cbn in Hfound. subst r.
      apply (rangeLoop_Some (λ r, r ≠ "")) in Hloop; [done|].
      intros field s2 s3 r _. destruct (fEmbedded field);
        [|by intros [? _]%wret_Some].
      intros (tokenField & s4 & _ & Hret)%wbind_Some.
      apply wret_Some in Hret as [Hret _]. case_decide; by simplify_eq. }
    eapply (rangeLoop_None
              (explored (λ u, ∃ c, c ∈ getPaginationTokenFields config ∧
                                   declares G u c) (embeds G))
              (λ field s, fEmbedded field = true → deref G (fType field) ∈ s))
      in Hloop as [Hexp Hfields].
    + assert (deref G t ∈ s1) by (destruct Hexp; set_solver).
      split; [|done]. apply (explored_mark _ _ (deref G t)); [done|..].
      * intros (c & Hc & Hdecl).
        rewrite (declares_structOf _ _ _ _ Hst) in Hdecl.
        apply list_elem_of_In in Hc.
        by rewrite (find_none _ _ Hfind c Hc) in Hdecl.
      * intros v (fields' & field & Hst' & Hin & Hemb & ->).
        simplify_eq. by apply Hfields.
    + apply explored_refl.
    + apply explored_trans.
    + intros field s2 s3 Hin [Hsub _] Hemb. set_solver.
    + intros field s2 s3 _. destruct (fEmbedded field);
        [|intros [_ ->]%wret_Some; split; [apply explored_refl|done]].
      intros (tokenField & s4 & Hcall & Hret)%wbind_Some.
      apply wret_Some in Hret as [Hret ->]. case_decide as Hne; [done|].
      subst tokenField. apply IH in Hcall as [??]. done.
  - apply wret_Some in Hrest as [_ ->]. split; [|set_solver].
    apply (explored_mark _ _ (deref G t)); [apply explored_refl|..].
    + intros (c & _ & fields & ? & _). congruence.
    + intros v (fields & field & ? & _). congruence.
Qed.

(** The generic traversal with a map of its own. *)
Lemma hasPaginationTokenFieldRecursive_fresh (t : TypeId) :
  ∃ seen',
    hasPaginationTokenFieldRecursive (walkFuel G) config G t ∅
      = Some (result "" (hasPaginationTokenFieldRecursive (walkFuel G)
                           config G t ∅), seen') ∧
    (result "" (hasPaginationTokenFieldRecursive (walkFuel G) config G t ∅)
       ≠ "" ↔
     ∃ c, c ∈ getPaginationTokenFields config ∧ present G t c).
Proof.
  destruct (hasPaginationTokenFieldRecursive_returns G config (walkFuel G) t ∅
              (walkFuel_enough G ∅) ∅) as (r & seen' & Hrun & _); [done|].
  rewrite Hrun. cbn [result]. exists seen'. split; [done|]. split.
  - intros Hr. exists r.
    by destruct (hasPaginationTokenFieldRecursive_found _ _ _ _ _ _ _ Hrun Hr).
  - intros (c & Hc & v & Hreach & Hdecl) ->.
    apply hasPaginationTokenFieldRecursive_empty in Hrun as [Hexp Hin].
    destruct (explored_closed _ _ _ _ _ Hexp Hin Hreach) as [_ Hno].
    apply Hno. by exists c.
Qed.
End TokenFieldComplete.

(** X7: with no empty name among the custom fields, the generic traversal
    started on the empty map with a recursion bound above the number of
    types returns a candidate field that is structurally present, and
    returns the empty string only when no candidate field is structurally
    present. *)
Theorem hasPaginationTokenFieldRecursive_decides (config : Config)
    (G : TypeGraph) (t : TypeId) (fuel : nat) :
  "" ∉ CustomTokenFields config →
  (unseen G ∅ < fuel)%nat →
  ∃ r seen',
    hasPaginationTokenFieldRecursive fuel config G t ∅ = Some (r, seen') ∧
    (r ≠ "" → r ∈ getPaginationTokenFields config ∧ present G t r) ∧
    (r = "" → ∀ c, c ∈ getPaginationTokenFields config → ¬ present G t c).
Proof.
  intros Hcustom Hfuel.
  destruct (hasPaginationTokenFieldRecursive_returns G config fuel t ∅ Hfuel ∅)
    as (r & seen' & Hrun & _); [done|].
  exists r, seen'. split_and!; [done|..].
  - intros Hr.
    by destruct (hasPaginationTokenFieldRecursive_found _ _ _ _ _ _ _ Hrun Hr).
  - intros -> c Hc (v & Hreach & Hdecl).
    apply hasPaginationTokenFieldRecursive_empty in Hrun as [Hexp Hin];
      [|done].
    destruct (explored_closed _ _ _ _ _ Hexp Hin Hreach) as [_ Hno].
    apply Hno. by exists c.
Qed.

Lemma hasPaginationTokenFieldRecursive_decides_witness :
  ∃ r seen',
    hasPaginationTokenFieldRecursive 4 Examples.noCustomFields
      Examples.selfEmbedding 1%nat ∅ = Some (r, seen') ∧
    (r ≠ "" → r ∈ getPaginationTokenFields Examples.noCustomFields ∧
              present Examples.selfEmbedding 1%nat r) ∧
    (r = "" → ∀ c, c ∈ getPaginationTokenFields Examples.noCustomFields →
                   ¬ present Examples.selfEmbedding 1%nat c).
Proof.
  apply (hasPaginationTokenFieldRecursive_decides Examples.noCustomFields
           Examples.selfEmbedding 1%nat 4).
  - by intros ?%elem_of_nil.
  - vm_compute. lia.
Defined.

Lemma find_app {A} (P : A → bool) (l1 l2 : list A) :
  find P (l1 ++ l2) = match find P l1 with
                      | Some x => Some x
                      | None => find P l2
                      end.
Proof.
  induction l1 as [|a l1 IH]; [done|]. cbn. by destruct (P a).
Qed.

(** X16: the custom fields come after the default ones.  When the struct
    of the type declares a default token field itself, the field returned
    is a default field the struct declares, whatever custom fields it
    declares besides; when it declares no default field but a custom one,
    the field returned is a custom field it declares. *)
Theorem default_fields_outrank_custom (config : Config) (G : TypeGraph)
    (t : TypeId) (seen : gset TypeId) (fields : list Field) (fuel : nat) :
  deref G t ∉ seen →
  structOf G (deref G t) = Some fields →
  (∀ d, d ∈ defaultPaginationTokenFields → d ∈ fName <$> fields →
        ∃ r, hasPaginationTokenFieldRecursive (S fuel) config G t seen
               = Some (r, {[deref G t]} ∪ seen) ∧
             r ∈ defaultPaginationTokenFields ∧ r ∈ fName <$> fields) ∧
  (∀ c, (∀ d, d ∈ defaultPaginationTokenFields → d ∉ fName <$> fields) →
        c ∈ CustomTokenFields config → c ∈ fName <$> fields →
        ∃ r, hasPaginationTokenFieldRecursive (S fuel) config G t seen
               = Some (r, {[deref G t]} ∪ seen) ∧
             r ∈ CustomTokenFields config ∧ r ∈ fName <$> fields).
Proof.
  intros Hnew Hst. split.
  - intros d Hd Hdeclared.
    destruct (find_is_Some (hasFieldNamed fields) _ _ Hd
                (proj2 (hasFieldNamed_elem _ _) Hdeclared)) as [r Hfind].
    exists r. split_and!.
    + apply (hasPaginationTokenFieldRecursive_direct _ _ _ _ _ fields);
        [done..|].
      unfold getPaginationTokenFields. by rewrite find_app, Hfind.
    + by apply find_some in Hfind as [?%list_elem_of_In _].
    + apply hasFieldNamed_elem. by apply find_some in Hfind as [_ ?].
  - intros c Hnone Hc Hdeclared.
    destruct (find_is_Some (hasFieldNamed fields) _ _ Hc
                (proj2 (hasFieldNamed_elem _ _) Hdeclared)) as [r Hfind].
    exists r. split_and!.
    + apply (hasPaginationTokenFieldRecursive_direct _ _ _ _ _ fields);
        [done..|].
      unfold getPaginationTokenFields. rewrite find_app.
      destruct (find (hasFieldNamed fields) defaultPaginationTokenFields)
        as [d|] eqn:Hdefault; [|done].
      apply find_some in Hdefault as [Hd%list_elem_of_In Hdecl].
      by destruct (Hnone d Hd); apply hasFieldNamed_elem.
    + by apply find_some in Hfind as [?%list_elem_of_In _].
    + apply hasFieldNamed_elem. by apply find_some in Hfind as [_ ?].
Qed.

Lemma default_fields_outrank_custom_witness :
  ∃ r, hasPaginationTokenFieldRecursive 1
         {| CustomTokenFields := ["Inner"]; IncludeTests := false |}
         Examples.wrappedPage 1%nat ∅
         = Some (r, {[deref Examples.wrappedPage 1%nat]} ∪ ∅) ∧
       r ∈ defaultPaginationTokenFields ∧ r ∈ ["Inner"; "Marker"].
Proof.
  apply (proj1 (default_fields_outrank_custom
                  {| CustomTokenFields := ["Inner"]; IncludeTests := false |}
                  Examples.wrappedPage 1%nat ∅
                  [ {| fName := "Inner"; fType := 3%nat; fEmbedded := true |};
                    {| fName := "Marker"; fType := 5%nat; fEmbedded := false |} ]
                  0 ltac:(vm_compute; set_solver) eq_refl) "Marker").
  - vm_compute. set_solver.
  - vm_compute. set_solver.
Defined.

(** ** The two entry points agree *)

Lemma hasPaginationTokenField_first (config : Config) (G : TypeGraph)
    (t : TypeId) (serviceName first : string) (others : list string) :
  apiSpecificPaginationFields !! strings.ToLower serviceName
    = Some (first :: others) →
  present G t first →
  hasPaginationTokenField config G t serviceName = first.
Proof.
  intros Hkey Hpresent. unfold hasPaginationTokenField.
  rewrite (decide_True _ _ (known_service_named _ _ Hkey)), Hkey.
  destruct (hasSpecificField_returns G first (walkFuel G) t ∅
              (walkFuel_enough G ∅) ∅) as ([] & seen1 & Hrun & _); [done|..].
  - unfold wbind at 1. cbn [rangeLoop]. unfold wbind at 1. unfold wbind at 1.
    by rewrite Hrun.
  - apply hasSpecificField_false in Hrun as [Hexp Hin].
    destruct Hpresent as (v & Hreach & Hdecl).
    by destruct (explored_closed _ _ _ _ _ Hexp Hin Hreach).
Qed.

Lemma hasPaginationTokenField_unregistered (config : Config) (G : TypeGraph)
    (t : TypeId) (serviceName : string) :
  serviceName = "" ∨
    apiSpecificPaginationFields !! strings.ToLower serviceName = None →
  hasPaginationTokenField config G t serviceName
    = result "" (hasPaginationTokenFieldRecursive (walkFuel G) config G t ∅) ∧
  getAllPaginationTokenFields config G t serviceName
    = if decide (result "" (hasPaginationTokenFieldRecursive (walkFuel G)
                              config G t ∅) ≠ "")
      then [result "" (hasPaginationTokenFieldRecursive (walkFuel G)
                         config G t ∅)]
      else [].
Proof.
  intros Hservice.
  unfold hasPaginationTokenField, getAllPaginationTokenFields.
  destruct (decide (serviceName ≠ "")) as [Hne|Hempty].
  - destruct Hservice as [->|Hnone]; [done|]. by rewrite Hnone.
  - done.
Qed.

Lemma hasPaginationTokenField_heads (config : Config) (G : TypeGraph)
    (t : TypeId) (serviceName : string) :
  hasPaginationTokenField config G t serviceName ≠ "" →
  ∃ others,
    getAllPaginationTokenFields config G t serviceName
      = hasPaginationTokenField config G t serviceName :: others.
Proof.
  intros Hfound.
  destruct (decide (serviceName = "")) as [Hempty|Hne].
  { destruct (hasPaginationTokenField_unregistered config G t serviceName)
      as [Heq ->]; [by left|].
    rewrite Heq in Hfound |- *. rewrite decide_True by done. by exists []. }
  destruct (apiSpecificPaginationFields !! strings.ToLower serviceName)
    as [registered|] eqn:Hkey.
  - pose proof (registered_fields _ _ Hkey) as (_ & Hreg & _).
    destruct registered as [|first others]; [done|].
    assert (present G t first ∨ ¬ present G t first) as [Hpresent|Habsent].
    { rewrite <- hasSpecificField_fresh.
      destruct (result false _); [by left|by right]. }
    + rewrite (hasPaginationTokenField_first _ _ _ _ _ _ Hkey Hpresent).
      unfold getAllPaginationTokenFields.
      rewrite (decide_True _ _ Hne), Hkey.
      rewrite filter_cons_True by by apply hasSpecificField_fresh.
      rewrite decide_True by (cbn; lia). by eexists.
    + by rewrite (hasPaginationTokenField_shared_seen _ _ _ _ _ _ Hkey Habsent)
        in Hfound.
  - destruct (hasPaginationTokenField_unregistered config G t serviceName)
      as [Heq ->]; [by right|].
    rewrite Heq in Hfound |- *. rewrite decide_True by done. by exists [].
Qed.

(** X8: a field returned by [hasPaginationTokenField] is the first of the
    fields [getAllPaginationTokenFields] returns for the same type and
    service: once the first check found a field, the second list is never
    empty and begins with that field.  For a service name that is empty or
    not registered, the second list holds that field and nothing else. *)
Theorem tokenField_heads_allTokenFields (config : Config) (G : TypeGraph)
    (t : TypeId) (serviceName : string) :
  (hasPaginationTokenField config G t serviceName ≠ "" →
   ∃ others,
     getAllPaginationTokenFields config G t serviceName
       = hasPaginationTokenField config G t serviceName :: others) ∧
  (serviceName = "" ∨
     apiSpecificPaginationFields !! strings.ToLower serviceName = None →
   getAllPaginationTokenFields config G t serviceName
     = if decide (hasPaginationTokenField config G t serviceName ≠ "")
       then [hasPaginationTokenField config G t serviceName]
       else []).
Proof.
  split; [apply hasPaginationTokenField_heads|].
  intros Hservice.
  by destruct (hasPaginationTokenField_unregistered config G t serviceName
                 Hservice) as [-> ->].
Qed.

Lemma tokenField_heads_allTokenFields_witness :
  ∃ others,
    getAllPaginationTokenFields Examples.noCustomFields Examples.listRecordSets
      1%nat "route53"
      = hasPaginationTokenField Examples.noCustomFields
          Examples.listRecordSets 1%nat "route53" :: others.
Proof.
  apply (proj1 (tokenField_heads_allTokenFields Examples.noCustomFields
                  Examples.listRecordSets 1%nat "route53")).
  vm_compute. congruence.
Defined.

(** X9: with no empty name among the custom fields,
    [getAllPaginationTokenFields] returns the empty list exactly when
    neither a field registered for the service nor a candidate of the
    generic list is structurally present in the type. *)
Theorem getAllPaginationTokenFields_empty (config : Config) (G : TypeGraph)
    (t : TypeId) (serviceName : string) :
  "" ∉ CustomTokenFields config →
  getAllPaginationTokenFields config G t serviceName = [] ↔
  (∀ registered field,
     apiSpecificPaginationFields !! strings.ToLower serviceName
       = Some registered →
     field ∈ registered → ¬ present G t field) ∧
  (∀ c, c ∈ getPaginationTokenFields config → ¬ present G t c).
Proof.
  intros Hcustom.
  destruct (hasPaginationTokenFieldRecursive_fresh config G Hcustom t)
    as (seen' & _ & Hgeneric).
  assert (∀ registered,
            filter (λ field, result false
                      (hasSpecificField (walkFuel G) G t field ∅) = true)
                   registered = [] ↔
            ∀ field, field ∈ registered → ¬ present G t field) as Hspecific.
  { intros registered. split.
    - intros Hnil field Hin Hpresent.
      apply hasSpecificField_fresh in Hpresent.
      assert (field ∈ filter (λ field, result false
                (hasSpecificField (walkFuel G) G t field ∅) = true) registered)
        as Hfield by by apply list_elem_of_filter.
      rewrite Hnil in Hfield. by apply elem_of_nil in Hfield.
    - intros Hnone. induction registered as [|field registered IH]; [done|].
      rewrite filter_cons_False.
      + apply IH. intros f Hf. apply Hnone. by right.
      + rewrite hasSpecificField_fresh. apply Hnone. by left. }
  assert ((if decide (result "" (hasPaginationTokenFieldRecursive (walkFuel G)
                                   config G t ∅) ≠ "")
           then [] ++ [result "" (hasPaginationTokenFieldRecursive (walkFuel G)
                                    config G t ∅)]
           else []) = [] ↔
          ∀ c, c ∈ getPaginationTokenFields config → ¬ present G t c)
    as Hdefault.
  { case_decide as Hr.
    - split; [done|]. intros Hnone. apply Hgeneric in Hr as (c & Hc & Hp).
      by destruct (Hnone c Hc).
    - split; [|done]. intros _ c Hc Hp.
      assert (result "" (hasPaginationTokenFieldRecursive (walkFuel G)
                           config G t ∅) ≠ "") as Hfound; [|done].
      apply Hgeneric. by exists c. }
  unfold getAllPaginationTokenFields.
  destruct (decide (serviceName ≠ "")) as [Hne|Hempty].
  - destruct (apiSpecificPaginationFields !! strings.ToLower serviceName)
      as [registered|] eqn:Hkey.
    + destruct (filter _ registered) as [|field fields] eqn:Hfilter.
      * rewrite decide_False by (cbn; lia). rewrite Hdefault.
        pose proof (proj1 (Hspecific registered) Hfilter) as Habsent.
        split; [|by intros [_ ?]].
        intros Hnone. split; [|done].
        intros registered' field [= <-]. apply Habsent.
      * rewrite decide_True by (cbn; lia). split; [done|].
        intros [Hnone _]. exfalso.
        pose proof (proj2 (Hspecific registered)
                      (λ f, Hnone registered f eq_refl)) as Hnil.
        by rewrite Hfilter in Hnil.
    + rewrite decide_False by (cbn; lia). rewrite Hdefault.
      split; [|by intros [_ ?]]. intros Hnone. split; [|done]. done.
  - rewrite decide_False by (cbn; lia). rewrite Hdefault.
    split; [|by intros [_ ?]]. intros Hnone. split; [|done].
    apply dec_stable in Hempty. subst serviceName.
    intros registered field Hkey. by apply registered_fields in Hkey as [? _].
Qed.

Lemma getAllPaginationTokenFields_empty_witness :
  getAllPaginationTokenFields Examples.noCustomFields Examples.selfEmbedding
    1%nat "dynamodb" = [] ↔
  (∀ registered field,
     apiSpecificPaginationFields !! strings.ToLower "dynamodb"
       = Some registered →
     field ∈ registered → ¬ present Examples.selfEmbedding 1%nat field) ∧
  (∀ c, c ∈ getPaginationTokenFields Examples.noCustomFields →
        ¬ present Examples.selfEmbedding 1%nat c).
Proof.
  apply (getAllPaginationTokenFields_empty Examples.noCustomFields
           Examples.selfEmbedding 1%nat "dynamodb").
  by intros ?%elem_of_nil.
Defined.

(** ** The consumption scanner, both patterns *)

Lemma scanNode_hasTokenAccess (varName : string) (tokenFields : list string)
    (n : Node) (h : Handling) :
  hasTokenAccess (scanNode varName tokenFields n h)
    = hasTokenAccess h || isTokenAccess varName tokenFields n.
Proof.
  unfold scanNode, isTokenAccess.
  destruct n as [| |pos fn args| |]; try destruct fn; repeat case_match;
    cbn [hasTokenAccess]; by rewrite ?orb_true_r, ?orb_false_r.
Qed.

Lemma scanNode_hasPaginatorUsage (varName : string)
    (tokenFields : list string) (n : Node) (h : Handling) :
  hasPaginatorUsage (scanNode varName tokenFields n h)
    = hasPaginatorUsage h || isPaginatorCall n.
Proof.
  unfold scanNode, isPaginatorCall.
  destruct n as [| |pos fn args| |]; try destruct fn; repeat case_match;
    cbn [hasPaginatorUsage orb]; by destruct (hasPaginatorUsage h).
Qed.

Section Flags.
Context (varName : string) (tokenFields : list string).
Context (flag : Handling → bool) (hit : Node → bool).
Hypothesis scan_flag :
  ∀ n h, flag (scanNode varName tokenFields n h) = flag h || hit n.

(** A flag is set after the walk exactly when it was set before or a node
    that sets it was visited. *)
Lemma fold_inspect_flag (l : list Node) :
  Forall (λ n, ∀ h,
            flag (inspect (scanNode varName tokenFields) n h) = true ↔
            flag h = true ∨ ∃ m, rtc childOf n m ∧ hit m = true) l →
  ∀ h,
    flag (fold_left (λ s a, inspect (scanNode varName tokenFields) a s) l h)
      = true ↔
    flag h = true ∨ ∃ c m, c ∈ l ∧ rtc childOf c m ∧ hit m = true.
Proof.
  induction 1 as [|n l Hn _ IH]; intros h; cbn [fold_left].
  - split; [by left|]. intros [?|(c & m & ?%elem_of_nil & _)]; done.
  - rewrite IH, Hn. split.
    + intros [[?|(m & ? & ?)]|(c & m & ? & ? & ?)].
      * by left.
      * right. exists n, m. split_and!; [by left|done..].
      * right. exists c, m. split_and!; [by right|done..].
    + intros [?|(c & m & [->|?]%elem_of_cons & ? & ?)].
      * by left; left.
      * left; right. by exists m.
      * right. by exists c, m.
Qed.

Lemma inspect_flag (n : Node) (h : Handling) :
  flag (inspect (scanNode varName tokenFields) n h) = true ↔
  flag h = true ∨ ∃ m, rtc childOf n m ∧ hit m = true.
Proof.
  revert h. induction n as [n IH] using Node_children_ind. intros h.
  rewrite inspect_children, (fold_inspect_flag _ IH), scan_flag.
  rewrite orb_true_iff. split.
  - intros [[?|?]|(c & m & Hc & Hreach & Hm)].
    + by left.
    + right. by exists n.
    + right. exists m. split; [|done]. by eapply rtc_l.
  - intros [?|(m & Hreach & Hm)]; [by left; left|].
    apply rtc_inv in Hreach as [<-|(c & Hc & Hreach)]; [by left; right|].
    right. by exists c, m.
Qed.
End Flags.

Lemma isTokenAccess_spec (varName : string) (tokenFields : list string)
    (n : Node) :
  isTokenAccess varName tokenFields n = true ↔
  ∃ field, field ∈ tokenFields ∧ n = SelectorExpr (Ident varName) field.
Proof.
  unfold isTokenAccess. split.
  - destruct n as [|X Sel| | |]; try done.
    intros (field & Hin%list_elem_of_In & Hhit)%existsb_exists.
    apply andb_true_iff in Hhit as [->%bool_decide_eq_true HX].
    destruct X; try done. apply bool_decide_eq_true in HX as ->.
    by exists field.
  - intros (field & Hin & ->). apply existsb_exists. exists field.
    split; [by apply list_elem_of_In|].
    cbn. by rewrite !bool_decide_eq_true_2.
Qed.

Lemma length_sliceTo (n : nat) (s : string) :
  (n ≤ String.length s)%nat → String.length (sliceTo n s) = n.
Proof.
  revert s. induction n as [|n IH]; intros [|c s]; cbn; try done; [lia|].
  intros Hlen. rewrite IH; [done|lia].
Qed.

Lemma paginatorName_suffix (member : string) :
  9 < len member ∧
    sliceFrom (Z.to_nat (len member - 9)) member = "Paginator" ↔
  ∃ pre, pre ≠ "" ∧ member = pre +:+ "Paginator".
Proof.
  unfold len. split.
  - intros [Hlen Hsuffix].
    exists (sliceTo (Z.to_nat (Z.of_nat (String.length member) - 9)) member).
    split.
    + intros Hpre.
      pose proof (length_sliceTo
                    (Z.to_nat (Z.of_nat (String.length member) - 9)) member)
        as Hl.
      rewrite Hpre in Hl. cbn in Hl. lia.
    + rewrite <- Hsuffix. by rewrite slice_split.
  - intros (pre & Hpre & ->). rewrite length_append.
    replace (Z.to_nat (Z.of_nat (String.length pre + String.length "Paginator")
                       - 9)) with (String.length pre) by (cbn; lia).
    rewrite sliceFrom_append. split; [|done].
    destruct pre; [done|]. cbn. lia.
Qed.

Lemma isPaginatorCall_spec (n : Node) :
  isPaginatorCall n = true ↔
  ∃ pos X member args,
    n = CallExpr pos (SelectorExpr X member) args ∧ paginatorName member.
Proof.
  unfold isPaginatorCall, paginatorName. split.
  - destruct n as [| |pos [|X member| | |] args| |]; try done.
    rewrite !orb_true_iff, andb_true_iff, !bool_decide_eq_true.
    rewrite paginatorName_suffix. intros Hname.
    exists pos, X, member, args. split; [done|tauto].
  - intros (pos & X & member & args & -> & Hname).
    rewrite !orb_true_iff, andb_true_iff, !bool_decide_eq_true.
    rewrite paginatorName_suffix. tauto.
Qed.

Lemma hasPaginationHandling_spec (body : Node) (varName : string)
    (tokenFields : list string) :
  hasPaginationHandling body varName tokenFields = true ↔
  accesses body varName tokenFields ∨
  ∃ member, invokes body member ∧ paginatorName member.
Proof.
  unfold hasPaginationHandling. rewrite orb_true_iff.
  rewrite (inspect_flag varName tokenFields hasTokenAccess
             (isTokenAccess varName tokenFields)
             (scanNode_hasTokenAccess varName tokenFields)).
  rewrite (inspect_flag varName tokenFields hasPaginatorUsage isPaginatorCall
             (scanNode_hasPaginatorUsage varName tokenFields)).
  cbn [hasTokenAccess hasPaginatorUsage]. unfold accesses, invokes.
  split.
  - intros [[?|(m & Hreach & Hm)]|[?|(m & Hreach & Hm)]]; try done.
    + left. apply isTokenAccess_spec in Hm as (field & Hin & ->).
      by exists field.
    + right. apply isPaginatorCall_spec in Hm
        as (pos & X & member & args & -> & Hname).
      exists member. split; [|done]. by exists pos, X, args.
  - intros [(field & Hin & Hreach)|(member & (pos & X & args & Hreach) & Hname)].
    + left; right. eexists. split; [done|].
      apply isTokenAccess_spec. by exists field.
    + right; right. eexists. split; [done|].
      apply isPaginatorCall_spec. by exists pos, X, member, args.
Qed.

(** X10: [hasPaginationHandling] is true exactly when the body holds a
    field access [varName.field] for one of the token fields, or an
    invocation whose member name is [HasMorePages] or [NextPage] or ends
    with [Paginator] and is longer; with neither in the body it is
    false.  An access to a token field of another variable, or to another
    field of this one, does not count. *)
Theorem hasPaginationHandling_exactly (body : Node) (varName : string)
    (tokenFields : list string) :
  (hasPaginationHandling body varName tokenFields = true ↔
   accesses body varName tokenFields ∨
   ∃ member, invokes body member ∧ paginatorName member) ∧
  (hasPaginationHandling body varName tokenFields = false ↔
   ¬ accesses body varName tokenFields ∧
   ∀ member, invokes body member → ¬ paginatorName member).
Proof.
  pose proof (hasPaginationHandling_spec body varName tokenFields) as Hspec.
  split; [done|].
  destruct (hasPaginationHandling body varName tokenFields).
  - split; [done|]. intros [Hno Hnone].
    destruct (proj1 Hspec eq_refl) as [?|(member & ? & ?)]; [done|].
    by destruct (Hnone member).
  - split; [|done]. intros _. split.
    + intros Ha. discriminate (proj2 Hspec (or_introl Ha)).
    + intros member Hi Hn.
      discriminate
        (proj2 Hspec (or_intror (ex_intro _ member (conj Hi Hn)))).
Qed.

Lemma hasPaginationHandling_exactly_witness :
  hasPaginationHandling MoreExamples.tokenLoopBody "result" ["NextToken"]
    = true.
Proof.
  apply (proj1 (hasPaginationHandling_exactly MoreExamples.tokenLoopBody
                  "result" ["NextToken"])).
  left. exists "NextToken". split; [by left|].
  eapply rtc_l; [by left|]. eapply rtc_l; [by left|].
  apply rtc_once. by left.
Defined.

(** ** The list of fields in the message *)

Lemma writeFields_rest (tokenFields written fields : list string)
    (last : string) (i : nat) (msg : string) :
  written ≠ [] → (1 ≤ i)%nat →
  (i + length fields = length tokenFields - 1)%nat →
  writeFields tokenFields i (fields ++ [last])
    (msg +:+ strings.Join written ", ")
  = msg +:+ strings.Join (written ++ fields) ", " +:+ ", and " +:+ last.
Proof.
  revert written i. induction fields as [|field fields IH];
    intros written i Hwritten Hi Hlen; cbn [app writeFields].
  - cbn [length] in Hlen. rewrite decide_True by lia.
    rewrite decide_True by lia. unfold WriteString.
    by rewrite app_nil_r, !append_assoc.
  - cbn [length] in Hlen. rewrite decide_True by lia.
    rewrite decide_False by lia. unfold WriteString.
    replace (((msg +:+ strings.Join written ", ") +:+ ", ") +:+ field)
      with (msg +:+ strings.Join (written ++ [field]) ", ").
    + rewrite IH; [|by destruct written|lia|lia].
      by rewrite <- app_assoc.
    + rewrite Join_app by done. cbn [strings.Join].
      by rewrite !append_assoc.
Qed.

(** X11: for two or more token fields the message lists all of them, the
    earlier ones separated by commas and the last one behind [, and], and
    names the first one in the loop remedy, followed by
    [(or other pagination fields)]. *)
Theorem buildErrorMessage_lists_fields (first last : string)
    (middle : list string) (varName : string) (info : apiCallInfo) :
  buildErrorMessage (first :: middle ++ [last]) varName info
  = "missing pagination handling for AWS SDK List API call (result has "
    +:+ strings.Join (first :: middle) ", " +:+ ", and " +:+ last
    +:+ " fields)" +:+ String "010" ""
    +:+ "When there are many results, only the first page is returned. Use "
    +:+ (if decide (serviceName info ≠ "" ∧ methodName info ≠ "")
         then "New" +:+ methodName info +:+ "Paginator"
         else "a paginator")
    +:+ " or loop with "
    +:+ (if decide (varName ≠ "") then varName +:+ "." else "")
    +:+ first +:+ " (or other pagination fields).".
Proof.
  unfold buildErrorMessage.
  destruct (middle ++ [last]) as [|second rest] eqn:Htail;
    [by destruct middle|].
  rewrite <- Htail. cbn [writeFields].
  destruct (decide (0 < 0)%nat) as [?|_]; [lia|].
  unfold WriteString at 1 2 3.
  pose proof (writeFields_rest (first :: middle ++ [last]) [first] middle last 1
                ("" +:+ "missing pagination handling for AWS SDK List API call"
                 +:+ " (result has ")) as Hrest.
  cbn [strings.Join] in Hrest. rewrite !append_assoc in Hrest.
  rewrite !append_assoc. rewrite Hrest; [|done|lia|].
  - unfold WriteString. change ([first] ++ middle) with (first :: middle).
    repeat case_decide; by rewrite !append_assoc.
  - cbn [length]. rewrite length_app. cbn [length]. lia.
Qed.

(** ** What [checkAssignment] reports *)

Lemma getAllPaginationTokenFields_present (config : Config) (G : TypeGraph)
    (t : TypeId) (serviceName field : string) :
  field ∈ getAllPaginationTokenFields config G t serviceName →
  present G t field.
Proof.
  assert (∀ fields : list string,
            field ∈ (if decide (result "" (hasPaginationTokenFieldRecursive
                                             (walkFuel G) config G t ∅) ≠ "")
                     then fields ++ [result "" (hasPaginationTokenFieldRecursive
                                                  (walkFuel G) config G t ∅)]
                     else fields) →
            field ∈ fields ∨ present G t field) as Hdefault.
  { intros fields. case_decide as Hr; [|by left].
    intros [?|Hlast%list_elem_of_singleton]%elem_of_app; [by left|].
    subst field. right.
    destruct (hasPaginationTokenFieldRecursive_returns G config (walkFuel G) t ∅
                (walkFuel_enough G ∅) ∅) as (r & seen' & Hrun & _); [done|].
    rewrite Hrun in Hr |- *. cbn [result] in Hr |- *.
    by destruct (hasPaginationTokenFieldRecursive_found _ _ _ _ _ _ _ Hrun Hr). }
  unfold getAllPaginationTokenFields.
  set (fields := if decide (serviceName ≠ "") then _ else _).
  assert (field ∈ fields → present G t field) as Hspecific.
  { unfold fields.
    destruct (decide (serviceName ≠ "")); [|by intros ?%elem_of_nil].
    destruct (apiSpecificPaginationFields !! strings.ToLower serviceName);
      [|by intros ?%elem_of_nil].
    intros [Hrun _]%list_elem_of_filter. by apply hasSpecificField_fresh. }
  destruct (decide (0 < length fields)%nat); [done|].
  intros [?|?]%Hdefault; auto.
Qed.

Lemma checkRightHandSide_Some (config : Config) (pass : Pass)
    (Lhs : list Node) (funcDecl : FuncDecl) (i : nat) (rightHandSide : Node)
    (d : Diagnostic) :
  checkRightHandSide config pass Lhs funcDecl i rightHandSide = Some d →
  ∃ pos fn args lhs resultType,
    rightHandSide = CallExpr pos fn args ∧
    Lhs !! i = Some lhs ∧
    extractResultType pass rightHandSide = Some resultType ∧
    hasPaginationTokenField config (TypeObjects pass) resultType
      (serviceName (extractAPICallInfo (TypeObjects pass) rightHandSide
                      resultType)) ≠ "" ∧
    isAWSSDKType (TypeObjects pass) resultType = true ∧
    extractVariableName lhs ≠ "" ∧
    hasPaginationHandling (Body funcDecl) (extractVariableName lhs)
      (getAllPaginationTokenFields config (TypeObjects pass) resultType
         (serviceName (extractAPICallInfo (TypeObjects pass) rightHandSide
                         resultType))) = false ∧
    d = {| diagPos := pos;
           Message :=
             buildErrorMessage
               (getAllPaginationTokenFields config (TypeObjects pass)
                  resultType
                  (serviceName (extractAPICallInfo (TypeObjects pass)
                                  rightHandSide resultType)))
               (extractVariableName lhs)
               (extractAPICallInfo (TypeObjects pass) rightHandSide
                  resultType) |}.
Proof.
  unfold checkRightHandSide.
  destruct rightHandSide as [| |pos fn args| |]; try done.
  destruct (Lhs !! i) as [lhs|]; [|done].
  destruct (extractResultType pass _) as [resultType|]; [|done].
  cbn zeta.
  destruct (decide (hasPaginationTokenField _ _ _ _ = "")) as [|Htoken];
    [done|].
  destruct (isAWSSDKType _ _) eqn:Hsdk; [|done]. cbn [negb].
  destruct (decide (extractVariableName lhs = "")) as [|Hname]; [done|].
  destruct (decide (length _ = 0%nat)) as [|Hlen]; [done|].
  destruct (hasPaginationHandling _ _ _) eqn:Hhandled; [done|].
  intros [= <-]. by eexists pos, fn, args, lhs, resultType.
Qed.

Lemma extractVariableName_named (lhs : Node) :
  extractVariableName lhs ≠ "" →
  lhs = Ident (extractVariableName lhs) ∧ extractVariableName lhs ≠ "_".
Proof.
  destruct lhs as [name| | | |]; try done. cbn.
  case_decide; [done|]. by intros _.
Qed.

(** X12: [checkAssignment] reports nothing but this: a diagnostic stands
    at a call expression of the right-hand side whose left-hand side at
    the same position is an identifier other than [_]; the result type of
    the call is of trusted provenance; the fields named in the message are
    the non-empty list [getAllPaginationTokenFields] returns, each of them
    structurally present in the result type; and the function body holds
    neither an access to one of these fields of that variable nor an
    invocation with a paginator name. *)
Theorem checkAssignment_reports_only (config : Config) (pass : Pass)
    (Lhs Rhs : list Node) (funcDecl : FuncDecl) (d : Diagnostic) :
  d ∈ checkAssignment config pass (AssignStmt Lhs Rhs) funcDecl →
  ∃ i pos fn args varName resultType fields,
    Rhs !! i = Some (CallExpr pos fn args) ∧
    Lhs !! i = Some (Ident varName) ∧ varName ≠ "_" ∧ varName ≠ "" ∧
    extractResultType pass (CallExpr pos fn args) = Some resultType ∧
    trustedWithin (TypeObjects pass) resultType ∧
    fields = getAllPaginationTokenFields config (TypeObjects pass) resultType
               (serviceName (extractAPICallInfo (TypeObjects pass)
                               (CallExpr pos fn args) resultType)) ∧
    fields ≠ [] ∧
    (∀ field, field ∈ fields → present (TypeObjects pass) resultType field) ∧
    ¬ accesses (Body funcDecl) varName fields ∧
    (∀ member, invokes (Body funcDecl) member → ¬ paginatorName member) ∧
    diagPos d = pos ∧
    Message d = buildErrorMessage fields varName
                  (extractAPICallInfo (TypeObjects pass)
                     (CallExpr pos fn args) resultType).
Proof.
  intros (i & rightHandSide & Hrhs & Hcheck)%checkAssignment_reports.
  apply checkRightHandSide_Some in Hcheck
    as (pos & fn & args & lhs & resultType & -> & Hlhs & Hty & Htoken & Hsdk
        & Hname & Hhandled & ->).
  apply extractVariableName_named in Hname as Hlhs'.
  destruct Hlhs' as [Hident Hblank].
  destruct (hasPaginationTokenField_heads config (TypeObjects pass) resultType
              (serviceName (extractAPICallInfo (TypeObjects pass)
                              (CallExpr pos fn args) resultType)) Htoken)
    as [others Hfields].
  exists i, pos, fn, args, (extractVariableName lhs), resultType,
    (getAllPaginationTokenFields config (TypeObjects pass) resultType
       (serviceName (extractAPICallInfo (TypeObjects pass)
                       (CallExpr pos fn args) resultType))).
  split_and!; try done.
  - by rewrite Hlhs, Hident at 1.
  - by apply isAWSSDKType_trustedWithin.
  - by rewrite Hfields.
  - intros field. apply getAllPaginationTokenFields_present.
  - intros Ha. by rewrite (proj2 (hasPaginationHandling_spec _ _ _)
                            (or_introl Ha)) in Hhandled.
  - intros member Hi Hn.
    by rewrite (proj2 (hasPaginationHandling_spec _ _ _)
                  (or_intror (ex_intro _ member (conj Hi Hn)))) in Hhandled.
Qed.

Lemma checkAssignment_reports_only_witness :
  ∃ i pos fn args varName resultType fields,
    [Examples.listBucketsCall] !! i = Some (CallExpr pos fn args) ∧
    [Ident "result"; Ident "err"] !! i = Some (Ident varName) ∧
    varName ≠ "_" ∧ varName ≠ "" ∧
    extractResultType Examples.listBucketsPass (CallExpr pos fn args)
      = Some resultType ∧
    trustedWithin (TypeObjects Examples.listBucketsPass) resultType ∧
    fields = getAllPaginationTokenFields Examples.noCustomFields
               (TypeObjects Examples.listBucketsPass) resultType
               (serviceName (extractAPICallInfo
                               (TypeObjects Examples.listBucketsPass)
                               (CallExpr pos fn args) resultType)) ∧
    fields ≠ [] ∧
    (∀ field, field ∈ fields →
              present (TypeObjects Examples.listBucketsPass) resultType field) ∧
    ¬ accesses (Body Examples.noHandling) varName fields ∧
    (∀ member, invokes (Body Examples.noHandling) member →
               ¬ paginatorName member) ∧
    diagPos MoreExamples.listBucketsDiagnostic = pos ∧
    Message MoreExamples.listBucketsDiagnostic
      = buildErrorMessage fields varName
          (extractAPICallInfo (TypeObjects Examples.listBucketsPass)
             (CallExpr pos fn args) resultType).
Proof.
  apply (checkAssignment_reports_only Examples.noCustomFields
           Examples.listBucketsPass [Ident "result"; Ident "err"]
           [Examples.listBucketsCall] Examples.noHandling
           MoreExamples.listBucketsDiagnostic).
  rewrite named_target_reported. by left.
Defined.

Lemma omap_length_le {A B} (f : A → option B) (l : list A) :
  (length (omap f l) ≤ length l)%nat.
Proof.
  induction l as [|x l IH]; [done|]. cbn. destruct (f x); cbn; lia.
Qed.

Lemma imap_shift {A B} (f : nat → A → B) (k : nat) (l : list A) :
  imap ((λ j, f (k + j)%nat) ∘ S) l = imap (λ j, f (S k + j)%nat) l.
Proof. apply imap_ext. intros j x _. cbn. f_equal. lia. Qed.

Lemma checkAssignment_positions_from (config : Config) (pass : Pass)
    (Lhs Rhs : list Node) (funcDecl : FuncDecl) (k : nat) :
  diagPos <$> omap id (imap (λ j, checkRightHandSide config pass Lhs funcDecl
                                    (k + j)%nat) Rhs)
    `sublist_of` callPositions (take (length Lhs - k) Rhs).
Proof.
  revert k. induction Rhs as [|rightHandSide Rhs IH]; intros k.
  - rewrite take_nil. by constructor.
  - rewrite imap_cons, imap_shift. cbn [omap list_omap]. rewrite Nat.add_0_r.
    destruct (checkRightHandSide _ _ _ _ k rightHandSide) as [d|] eqn:Hcheck.
    + apply checkRightHandSide_Some in Hcheck
        as (pos & fn & args & lhs & resultType & -> & Hlhs & _ & _ & _ & _ & _
            & ->).
      apply lookup_lt_Some in Hlhs.
      replace (length Lhs - k)%nat with (S (length Lhs - S k)) by lia.
      cbn. constructor. apply (IH (S k)).
    + cbn [id]. destruct (length Lhs - k)%nat as [|n] eqn:Hn.
      * specialize (IH (S k)).
        replace (length Lhs - S k)%nat with 0%nat in IH by lia.
        by rewrite take_0 in IH |- *.
      * specialize (IH (S k)).
        replace (length Lhs - S k)%nat with n in IH by lia.
        cbn [take]. unfold callPositions. cbn [omap list_omap].
        case_match; [by apply sublist_cons|done].
Qed.

(** X13: the positions of the diagnostics of a statement are a
    subsequence, in order, of the positions of the call expressions on its
    right-hand side that have a left-hand side at the same index: every
    call is reported at most once, and a call beyond the last left-hand
    side is not reported. *)
Theorem checkAssignment_positions (config : Config) (pass : Pass)
    (Lhs Rhs : list Node) (funcDecl : FuncDecl) :
  diagPos <$> checkAssignment config pass (AssignStmt Lhs Rhs) funcDecl
    `sublist_of` callPositions (take (length Lhs) Rhs) ∧
  (length (checkAssignment config pass (AssignStmt Lhs Rhs) funcDecl)
     ≤ length Lhs `min` length Rhs)%nat.
Proof.
  assert (diagPos <$> checkAssignment config pass (AssignStmt Lhs Rhs) funcDecl
            `sublist_of` callPositions (take (length Lhs) Rhs)) as Hsub.
  { pose proof (checkAssignment_positions_from config pass Lhs Rhs funcDecl 0)
      as H0.
    by rewrite Nat.sub_0_r in H0. }
  split; [done|].
  apply sublist_length in Hsub. rewrite length_fmap in Hsub.
  etrans; [exact Hsub|]. unfold callPositions.
  etrans; [apply omap_length_le|]. by rewrite length_take.
Qed.

Lemma checkAssignment_positions_witness :
  diagPos <$> checkAssignment Examples.noCustomFields Examples.listBucketsPass
                (AssignStmt [Ident "result"]
                   [Examples.listBucketsCall; Examples.listBucketsCall])
                Examples.noHandling
    `sublist_of` callPositions
                   (take 1 [Examples.listBucketsCall; Examples.listBucketsCall]) ∧
  (length (checkAssignment Examples.noCustomFields Examples.listBucketsPass
             (AssignStmt [Ident "result"]
                [Examples.listBucketsCall; Examples.listBucketsCall])
             Examples.noHandling) ≤ 1 `min` 2)%nat.
Proof.
  apply (checkAssignment_positions Examples.noCustomFields
           Examples.listBucketsPass [Ident "result"]
           [Examples.listBucketsCall; Examples.listBucketsCall]
           Examples.noHandling).
Defined.

Lemma accesses_mono (body : Node) (varName : string)
    (fields fields' : list string) :
  fields ⊆ fields' → accesses body varName fields →
  accesses body varName fields'.
Proof. intros Hsub (field & Hin & Hreach). exists field. auto. Qed.

(** X14: for a service that is not registered, a call bound to a named
    variable is reported when a candidate of the generic list is
    structurally present in its result type, the type is of trusted
    provenance, and the function body holds neither an access to a
    candidate field of that variable nor an invocation with a paginator
    name.  The diagnostic stands at the call and names one candidate field
    that is structurally present, and the variable. *)
Theorem checkAssignment_reports_unhandled (config : Config) (pass : Pass)
    (Lhs Rhs : list Node) (funcDecl : FuncDecl) (i : nat) (pos : Pos)
    (fn : Node) (args : list Node) (varName : string) (resultType : TypeId) :
  "" ∉ CustomTokenFields config →
  Rhs !! i = Some (CallExpr pos fn args) →
  Lhs !! i = Some (Ident varName) → varName ≠ "_" → varName ≠ "" →
  extractResultType pass (CallExpr pos fn args) = Some resultType →
  apiSpecificPaginationFields
    !! strings.ToLower
         (serviceName (extractAPICallInfo (TypeObjects pass)
                         (CallExpr pos fn args) resultType)) = None →
  (∃ c, c ∈ getPaginationTokenFields config ∧
        present (TypeObjects pass) resultType c) →
  trustedWithin (TypeObjects pass) resultType →
  ¬ accesses (Body funcDecl) varName (getPaginationTokenFields config) →
  (∀ member, invokes (Body funcDecl) member → ¬ paginatorName member) →
  ∃ tokenField,
    tokenField ∈ getPaginationTokenFields config ∧
    present (TypeObjects pass) resultType tokenField ∧
    {| diagPos := pos;
       Message := buildErrorMessage [tokenField] varName
                    (extractAPICallInfo (TypeObjects pass)
                       (CallExpr pos fn args) resultType) |}
      ∈ checkAssignment config pass (AssignStmt Lhs Rhs) funcDecl.
Proof.
  intros Hcustom Hrhs Hlhs Hblank Hname Hty Hservice Hcand Htrusted Haccess
    Hpaginator.
  set (G := TypeObjects pass) in *.
  set (info := extractAPICallInfo G (CallExpr pos fn args) resultType) in *.
  destruct (hasPaginationTokenFieldRecursive_fresh config G Hcustom resultType)
    as (seen' & Hrun & Hfresh).
  set (r := result "" (hasPaginationTokenFieldRecursive (walkFuel G) config G
                         resultType ∅)) in *.
  assert (r ≠ "") as Hr by by apply Hfresh.
  destruct (hasPaginationTokenFieldRecursive_found _ _ _ _ _ _ _ Hrun Hr)
    as [Hpresent Hin].
  destruct (hasPaginationTokenField_unregistered config G resultType
              (serviceName info) (or_intror Hservice)) as [Htoken Hall].
  fold r in Htoken, Hall. rewrite decide_True in Hall by done.
  exists r. split_and!; [done..|].
  apply checkAssignment_reports. exists i, (CallExpr pos fn args).
  split; [done|]. unfold checkRightHandSide. rewrite Hlhs, Hty. cbn zeta.
  fold G. fold info. rewrite Htoken, Hall.
  rewrite decide_False by done.
  rewrite (proj2 (isAWSSDKType_trustedWithin G resultType) Htrusted).
  cbn [negb extractVariableName].
  rewrite (decide_False (P := varName = "_")) by done.
  rewrite decide_False by done.
  rewrite decide_False by done.
  destruct (hasPaginationHandling (Body funcDecl) varName [r]) eqn:Hhandled;
    [|done].
  apply hasPaginationHandling_spec in Hhandled
    as [Ha|(member & Hi & Hn)].
  - destruct Haccess. eapply accesses_mono; [|done].
    by intros f ->%list_elem_of_singleton.
  - by destruct (Hpaginator member).
Qed.

Lemma checkAssignment_reports_unhandled_witness :
  ∃ tokenField,
    tokenField ∈ getPaginationTokenFields Examples.noCustomFields ∧
    present (TypeObjects Examples.listBucketsPass) 1%nat tokenField ∧
    {| diagPos := 42;
       Message := buildErrorMessage [tokenField] "result"
                    (extractAPICallInfo (TypeObjects Examples.listBucketsPass)
                       (CallExpr 42 (SelectorExpr (Ident "client") "ListBuckets")
                          [Ident "ctx"; Ident "input"]) 1%nat) |}
      ∈ checkAssignment Examples.noCustomFields Examples.listBucketsPass
          (AssignStmt [Ident "result"; Ident "err"] [Examples.listBucketsCall])
          Examples.noHandling.
Proof.
  apply (checkAssignment_reports_unhandled Examples.noCustomFields
           Examples.listBucketsPass [Ident "result"; Ident "err"]
           [Examples.listBucketsCall] Examples.noHandling 0 42
           (SelectorExpr (Ident "client") "ListBuckets")
           [Ident "ctx"; Ident "input"] "result" 1%nat).
  - by intros ?%elem_of_nil.
  - reflexivity.
  - reflexivity.
  - done.
  - done.
  - reflexivity.
  - vm_compute. reflexivity.
  - exists "NextToken". split; [vm_compute; set_solver|].
    rewrite <- hasSpecificField_fresh. vm_compute. reflexivity.
  - rewrite <- isAWSSDKType_trustedWithin. vm_compute. reflexivity.
  - intros Ha.
    discriminate (proj2 (hasPaginationHandling_spec _ _ _) (or_introl Ha)).
  - intros member Hi Hn.
    discriminate
      (proj2 (hasPaginationHandling_spec (Body Examples.noHandling) "" [])
         (or_intror (ex_intro _ member (conj Hi Hn)))).
Defined.

(** ** The pass over the files *)

Section RunWalk.
Context (config : Config) (pass : Pass) (filename : string).






End RunWalk.


